(** * Async locks of typescript-locks: QueueLock, SemaphoreLock, SimpleLock, ReadWriteLock

    A shallow embedding of the four lock classes of [src/queueLock.ts],
    [src/simpleLock.ts] and [src/readWriteLock.ts], and the properties their
    specification states about them.

    Execution model.  The locks run on the single-threaded JavaScript event
    loop: a call of [acquire()] runs the promise executor, and with it the
    first call of [tryAcquire], to completion before anything else runs; an
    invocation of a release function runs to completion too, including the
    [tryAcquire] closures it takes off a queue and calls.  One such run is one
    atomic step of the model, and a program is an interleaving of these
    steps.

    Continuations.  Every call of [acquire()] creates one promise and one
    closure [tryAcquire] that captures its [resolve].  A [Caller] names that
    call.  A queue of closures is a list of callers, calling a queued closure
    is calling [tryAcquire] for its caller, and [resolve(release)] is recorded
    as output: every operation returns, next to the new state, the callers
    whose promise it resolved, in order.

    Numbers.  A counter of the source ([permits], [readers]) is a JavaScript
    number that only ever holds an integer; it is an integer of [Z] here,
    which is exact as long as the counter stays below 2^53.  Beyond, [x--] and
    [x++] round: [SemaphoreLockDouble] is the semaphore with that arithmetic,
    and the statements about the value of [permits] are made on it. *)

From Stdlib Require Import String DecimalString.
From Stdlib Require Import ZArith QArith Qround Bool Arith Lia List.
Import ListNotations.
Close Scope Q_scope.

Set Implicit Arguments.

(** ** Callers and array operations *)

Definition Caller := nat.

(** [Array.prototype.push]: append at the tail. *)
Definition push {A : Type} (q : list A) (x : A) : list A := q ++ [x].

(** [Array.prototype.shift]: take the head off; [undefined] on an empty array. *)
Definition shift {A : Type} (q : list A) : option A * list A :=
  match q with
  | [] => (None, [])
  | x :: rest => (Some x, rest)
  end.

(** Membership test and removal of one occurrence, for the bookkeeping of the
    test harnesses below. *)
Definition mem (c : Caller) (l : list Caller) : bool := existsb (Nat.eqb c) l.

Fixpoint remove1 (c : Caller) (l : list Caller) : list Caller :=
  match l with
  | [] => []
  | x :: rest => if Nat.eqb c x then rest else x :: remove1 c rest
  end.

(** [before a b l]: [a] occurs in [l] at an earlier position than [b]. *)
Definition before {A : Type} (a b : A) (l : list A) : Prop :=
  exists l1 l2 l3, l = l1 ++ a :: l2 ++ b :: l3.

(** ** QueueLock (src/queueLock.ts, lines 5-40) *)

Module QueueLock.

Record t : Type := mk { locked : bool; queue : list Caller }.

(** [private locked: boolean = false; private queue = []] *)
Definition init : t := mk false [].

(** The closure [tryAcquire] of the call [c] (lines 18-36). *)
Definition tryAcquire (c : Caller) (s : t) : t * list Caller :=
  if negb (locked s) then
    (mk true (queue s), [c])
  else
    (mk (locked s) (push (queue s) c), []).

(** [acquire()]: the executor defines [tryAcquire] and calls it (line 37). *)
Definition acquire (c : Caller) (s : t) : t * list Caller := tryAcquire c s.

(** The release function handed to [resolve] (lines 25-31). *)
Definition release (s : t) : t * list Caller :=
  let s := mk false (queue s) in
  if (0 <? length (queue s))%nat then
    let '(next, rest) := shift (queue s) in
    let s := mk (locked s) rest in
    match next with
    | Some c => tryAcquire c s
    | None => (s, [])
    end
  else (s, []).

End QueueLock.

(** ** SemaphoreLock (src/queueLock.ts, lines 75-122) *)

(** The argument of the constructor is any JavaScript number. *)
Module JS.

Inductive number : Type :=
| Finite (q : Q)
| NaN
| Infinity
| NegInfinity.

(** [Number.isInteger]: finite and equal to its floor. *)
Definition Number_isInteger (x : number) : bool :=
  match x with
  | Finite q => Qeq_bool (inject_Z (Qfloor q)) q
  | _ => false
  end.

(** [x < y]; every comparison with [NaN] is false. *)
Definition lt (x y : number) : bool :=
  match x, y with
  | NaN, _ | _, NaN => false
  | _, NegInfinity => false
  | NegInfinity, _ => true
  | Infinity, _ => false
  | _, Infinity => true
  | Finite p, Finite q => negb (Qle_bool q p)
  end.

Definition of_Z (z : Z) : number := Finite (inject_Z z).

(** [Error(message)] *)
Inductive error : Type := Error (message : string).

(** The integers up to [2^53] in magnitude are numbers (binary64); beyond
    them the numbers are [2 ^ (e - 52)] apart, [e] the binary exponent. *)
Definition MAX_EXACT : Z := 9007199254740992.

(** The number nearest to an integer [z], a tie going to the even
    significand: the result of an arithmetic operation whose exact value is
    [z].  (For [z] below [2^1024] in magnitude; a counter that starts as a
    number and changes by one stays below.) *)
Definition round_double (z : Z) : Z :=
  let a := Z.abs z in
  if (a <? MAX_EXACT)%Z then z
  else
    let ulp := (2 ^ (Z.log2 a - 52))%Z in
    let q := (a / ulp)%Z in
    let r := (a mod ulp)%Z in
    let q' :=
      if (2 * r <? ulp)%Z then q
      else if (ulp <? 2 * r)%Z then (q + 1)%Z
      else if Z.even q then q else (q + 1)%Z in
    (Z.sgn z * (q' * ulp))%Z.

(** [x--] and [x++] on a number that holds the integer [x]. *)
Definition decrement (x : Z) : Z := round_double (x - 1).
Definition increment (x : Z) : Z := round_double (x + 1).

End JS.

Module SemaphoreLock.

Record t : Type := mk { permits : Z; queue : list Caller }.

(** The error of line 84.  The specification calls it InvalidConfiguration. *)
Definition InvalidConfiguration : JS.error :=
  JS.Error "maxConcurrency must be a positive integer"%string.

(** [constructor(private permits: number)] (lines 82-87).  Past the check the
    number is an integer, kept as its value in [Z]. *)
Definition new (permits : JS.number) : JS.error + t :=
  if negb (JS.Number_isInteger permits) || JS.lt permits (JS.of_Z 1) then
    inl InvalidConfiguration
  else
    match permits with
    | JS.Finite q => inr (mk (Qfloor q) [])
    | _ => inl InvalidConfiguration
    end.

(** The state a successful [new SemaphoreLock(k)] builds. *)
Definition init (k : Z) : t := mk k [].

(** The closure [tryAcquire] of the call [c] (lines 96-105). *)
Definition tryAcquire (c : Caller) (s : t) : t * list Caller :=
  if (0 <? permits s)%Z then
    (mk (permits s - 1) (queue s), [c])
  else
    (mk (permits s) (push (queue s) c), []).

Definition acquire (c : Caller) (s : t) : t * list Caller := tryAcquire c s.

(** [private release()] (lines 114-121). *)
Definition release (s : t) : t * list Caller :=
  let s := mk (permits s + 1) (queue s) in
  if (0 <? length (queue s))%nat then
    let '(next, rest) := shift (queue s) in
    let s := mk (permits s) rest in
    match next with
    | Some c => tryAcquire c s
    | None => (s, [])
    end
  else (s, []).

End SemaphoreLock.

(** SemaphoreLock with [this.permits--] and [this.permits++] as JavaScript
    computes them (src/queueLock.ts, lines 94-121).  The state and the
    constructor are those of [SemaphoreLock]. *)
Module SemaphoreLockDouble.

(** The closure [tryAcquire] of the call [c] (lines 96-105). *)
Definition tryAcquire (c : Caller) (s : SemaphoreLock.t)
    : SemaphoreLock.t * list Caller :=
  if (0 <? SemaphoreLock.permits s)%Z then
    (SemaphoreLock.mk (JS.decrement (SemaphoreLock.permits s))
       (SemaphoreLock.queue s), [c])
  else
    (SemaphoreLock.mk (SemaphoreLock.permits s)
       (push (SemaphoreLock.queue s) c), []).

Definition acquire (c : Caller) (s : SemaphoreLock.t)
    : SemaphoreLock.t * list Caller :=
  tryAcquire c s.

(** [private release()] (lines 114-121). *)
Definition release (s : SemaphoreLock.t) : SemaphoreLock.t * list Caller :=
  let s := SemaphoreLock.mk (JS.increment (SemaphoreLock.permits s))
             (SemaphoreLock.queue s) in
  if (0 <? length (SemaphoreLock.queue s))%nat then
    let '(next, rest) := shift (SemaphoreLock.queue s) in
    let s := SemaphoreLock.mk (SemaphoreLock.permits s) rest in
    match next with
    | Some c => tryAcquire c s
    | None => (s, [])
    end
  else (s, []).

End SemaphoreLockDouble.

(** ** Callers of a lock with [acquire(): Promise<() => void>]

    QueueLock and SemaphoreLock have the same interface.  A harness records,
    next to the lock, the calls of [acquire()] in order ([calls]), the
    promises resolved in order ([granted]) and the release functions handed
    out and not yet invoked ([held]).  A release function is a single-use
    capability: [Release c] is the invocation of the one handed to [c], and is
    possible only while [c] holds it. *)

Section Harness.

Variable L : Type.
Variable acquire : Caller -> L -> L * list Caller.
Variable release : L -> L * list Caller.

Record Sys : Type := mkSys {
  lock : L;
  calls : list Caller;
  granted : list Caller;
  held : list Caller
}.

Inductive Op : Type :=
| Acquire (c : Caller)
| Release (c : Caller).

Definition start (l : L) : Sys := mkSys l [] [] [].

Definition exec (op : Op) (s : Sys) : option Sys :=
  match op with
  | Acquire c =>
      if mem c (calls s) then None
      else
        let '(l, out) := acquire c (lock s) in
        Some (mkSys l (calls s ++ [c]) (granted s ++ out) (held s ++ out))
  | Release c =>
      if mem c (held s) then
        let '(l, out) := release (lock s) in
        Some (mkSys l (calls s) (granted s ++ out) (remove1 c (held s) ++ out))
      else None
  end.

Fixpoint run (ops : list Op) (s : Sys) : option Sys :=
  match ops with
  | [] => Some s
  | op :: rest =>
      match exec op s with
      | Some s' => run rest s'
      | None => None
      end
  end.

Inductive reachable (l0 : L) : Sys -> Prop :=
| reach_start : reachable l0 (start l0)
| reach_step : forall s op s',
    reachable l0 s -> exec op s = Some s' -> reachable l0 s'.

End Harness.

(** ** SimpleLock (src/simpleLock.ts, lines 6-49) *)

Module SimpleLock.

Record t : Type := mk { locked : bool; maxWaitTime : Z }.

(** [constructor(maxWaitTime: number)]; [locked] starts as [false]. *)
Definition new (maxWaitTime : Z) : t := mk false maxWaitTime.

(** [`${threadId}`] for a thread number. *)
Definition show (threadId : nat) : string :=
  NilEmpty.string_of_uint (Nat.to_uint threadId).

(** How a run of [acquire] ends: at [await this.sleepSimulation()], to be
    resumed at the loop test when the timer fires, or at its return. *)
Inductive Outcome : Type := Sleeping | Returned.

(** [acquire(threadId)] (lines 33-39), from the test of its [while] loop to
    the next [await] or to its end.  The lines written by [console.log] are
    output. *)
Definition acquire (threadId : nat) (s : t) : t * list string * Outcome :=
  if locked s then
    (s, [], Sleeping)
  else
    (mk true (maxWaitTime s),
     ["Thread " ++ show threadId ++ " - Acquired lock"]%string,
     Returned).

(** [release(threadId)] (lines 45-48). *)
Definition release (threadId : nat) (s : t) : t * list string :=
  (mk false (maxWaitTime s),
   ["Thread " ++ show threadId ++ " - Released lock"]%string).

(** Threads that use the lock as [executeDemo] does: [acquire], then
    [release].  [waiting] are the threads suspended in [sleepSimulation],
    [holders] the threads past their [acquire] that have not released yet. *)
Record Sys : Type := mkSys {
  lock : t;
  waiting : list Caller;
  holders : list Caller;
  console : list string
}.

Inductive Op : Type :=
| Call (c : Caller)      (* an idle thread calls [acquire(c)] *)
| Wake (c : Caller)      (* the timer of a sleeping thread fires *)
| Release (c : Caller).  (* a holder calls [release(c)] *)

Definition start (l : t) : Sys := mkSys l [] [] [].

Definition resume (c : Caller) (s : Sys) (rest : list Caller) : Sys :=
  let '(l, out, r) := acquire c (lock s) in
  match r with
  | Sleeping => mkSys l (rest ++ [c]) (holders s) (console s ++ out)
  | Returned => mkSys l rest (holders s ++ [c]) (console s ++ out)
  end.

Definition exec (op : Op) (s : Sys) : option Sys :=
  match op with
  | Call c =>
      if mem c (waiting s) || mem c (holders s) then None
      else Some (resume c s (waiting s))
  | Wake c =>
      if mem c (waiting s) then Some (resume c s (remove1 c (waiting s)))
      else None
  | Release c =>
      if mem c (holders s) then
        let '(l, out) := release c (lock s) in
        Some (mkSys l (waiting s) (remove1 c (holders s)) (console s ++ out))
      else None
  end.

Fixpoint run (ops : list Op) (s : Sys) : option Sys :=
  match ops with
  | [] => Some s
  | op :: rest =>
      match exec op s with
      | Some s' => run rest s'
      | None => None
      end
  end.

Inductive reachable (l0 : t) : Sys -> Prop :=
| reach_start : reachable l0 (start l0)
| reach_step : forall s op s',
    reachable l0 s -> exec op s = Some s' -> reachable l0 s'.

End SimpleLock.

(** ** ReadWriteLock (src/readWriteLock.ts, lines 11-94) *)

Module ReadWriteLock.

Record t : Type := mk {
  readers : Z;
  writer : bool;
  readQueue : list Caller;
  writeQueue : list Caller
}.

Definition init : t := mk 0 false [] [].

(** Which promise a closure resolves: one of [acquireRead] or of
    [acquireWrite]. *)
Inductive Mode : Type := Read | Write.

Definition Grant : Type := (Mode * Caller)%type.

(** The closure [tryAcquire] of the call [c] of [acquireRead] (lines 28-37). *)
Definition tryAcquireRead (c : Caller) (s : t) : t * list Grant :=
  if negb (writer s) && (length (writeQueue s) =? 0)%nat then
    (mk (readers s + 1) (writer s) (readQueue s) (writeQueue s), [(Read, c)])
  else
    (mk (readers s) (writer s) (push (readQueue s) c) (writeQueue s), []).

Definition acquireRead (c : Caller) (s : t) : t * list Grant :=
  tryAcquireRead c s.

(** The closure [tryAcquire] of the call [c] of [acquireWrite] (lines 49-58). *)
Definition tryAcquireWrite (c : Caller) (s : t) : t * list Grant :=
  if negb (writer s) && (readers s =? 0)%Z then
    (mk (readers s) true (readQueue s) (writeQueue s), [(Write, c)])
  else
    (mk (readers s) (writer s) (readQueue s) (push (writeQueue s) c), []).

Definition acquireWrite (c : Caller) (s : t) : t * list Grant :=
  tryAcquireWrite c s.

(** [private releaseRead()] (lines 67-74). *)
Definition releaseRead (s : t) : t * list Grant :=
  let s := mk (readers s - 1) (writer s) (readQueue s) (writeQueue s) in
  if (readers s =? 0)%Z && (0 <? length (writeQueue s))%nat then
    let '(next, rest) := shift (writeQueue s) in
    let s := mk (readers s) (writer s) (readQueue s) rest in
    match next with
    | Some c => tryAcquireWrite c s
    | None => (s, [])
    end
  else (s, []).

(** The loop of lines 88-91:
    [while (this.readQueue.length > 0) { next = shift(); next?.(); }].
    A closure that finds the lock taken pushes itself back, so the loop
    need not end: [fuel] bounds the number of iterations, and [None] is a
    loop still running when it is used up. *)
Fixpoint wakeReaders (fuel : nat) (s : t) : option (t * list Grant) :=
  if (0 <? length (readQueue s))%nat then
    match fuel with
    | O => None
    | S fuel' =>
        let '(next, rest) := shift (readQueue s) in
        let s := mk (readers s) (writer s) rest (writeQueue s) in
        let '(s, out) :=
          match next with
          | Some c => tryAcquireRead c s
          | None => (s, [])
          end in
        match wakeReaders fuel' s with
        | Some (s', out') => Some (s', out ++ out')
        | None => None
        end
    end
  else Some (s, []).

(** [private releaseWrite()] (lines 80-93). *)
Definition releaseWrite (fuel : nat) (s : t) : option (t * list Grant) :=
  let s := mk (readers s) false (readQueue s) (writeQueue s) in
  if (0 <? length (writeQueue s))%nat then
    let '(next, rest) := shift (writeQueue s) in
    let s := mk (readers s) (writer s) (readQueue s) rest in
    match next with
    | Some c => Some (tryAcquireWrite c s)
    | None => Some (s, [])
    end
  else wakeReaders fuel s.

(** The callers a list of grants resolves in mode [m]. *)
Definition is_mode (m : Mode) (g : Grant) : bool :=
  match m, fst g with
  | Read, Read | Write, Write => true
  | _, _ => false
  end.

Definition grants (m : Mode) (out : list Grant) : list Caller :=
  map snd (filter (is_mode m) out).

(** Callers of the lock.  [readHeld] and [writeHeld] are the release functions
    of the two kinds handed out and not yet invoked; each is a single-use
    capability, invoked by the caller it was handed to. *)
Record Sys : Type := mkSys {
  lock : t;
  calls : list Caller;
  readHeld : list Caller;
  writeHeld : list Caller
}.

Inductive Op : Type :=
| AcquireRead (c : Caller)
| AcquireWrite (c : Caller)
| ReleaseRead (c : Caller)
| ReleaseWrite (c : Caller) (fuel : nat).

Definition start (l : t) : Sys := mkSys l [] [] [].

Definition settle (cs : list Caller) (rh wh : list Caller)
    (r : t * list Grant) : Sys :=
  mkSys (fst r) cs (rh ++ grants Read (snd r)) (wh ++ grants Write (snd r)).

Definition exec (op : Op) (s : Sys) : option Sys :=
  match op with
  | AcquireRead c =>
      if mem c (calls s) then None
      else Some (settle (calls s ++ [c]) (readHeld s) (writeHeld s)
                   (acquireRead c (lock s)))
  | AcquireWrite c =>
      if mem c (calls s) then None
      else Some (settle (calls s ++ [c]) (readHeld s) (writeHeld s)
                   (acquireWrite c (lock s)))
  | ReleaseRead c =>
      if mem c (readHeld s) then
        Some (settle (calls s) (remove1 c (readHeld s)) (writeHeld s)
                (releaseRead (lock s)))
      else None
  | ReleaseWrite c fuel =>
      if mem c (writeHeld s) then
        match releaseWrite fuel (lock s) with
        | Some r =>
            Some (settle (calls s) (readHeld s) (remove1 c (writeHeld s)) r)
        | None => None
        end
      else None
  end.

Fixpoint run (ops : list Op) (s : Sys) : option Sys :=
  match ops with
  | [] => Some s
  | op :: rest =>
      match exec op s with
      | Some s' => run rest s'
      | None => None
      end
  end.

Inductive reachable (l0 : t) : Sys -> Prop :=
| reach_start : reachable l0 (start l0)
| reach_step : forall s op s',
    reachable l0 s -> exec op s = Some s' -> reachable l0 s'.

End ReadWriteLock.

(** ** The two harnessed locks, and the invariants of their reachable states *)

Definition ql_exec := exec QueueLock.acquire QueueLock.release.
Definition ql_run := run QueueLock.acquire QueueLock.release.
Definition ql_reachable :=
  reachable QueueLock.acquire QueueLock.release QueueLock.init.

Definition sem_exec := exec SemaphoreLock.acquire SemaphoreLock.release.
Definition sem_run := run SemaphoreLock.acquire SemaphoreLock.release.
Definition sem_reachable (k : Z) :=
  reachable SemaphoreLock.acquire SemaphoreLock.release (SemaphoreLock.init k).

Definition semd_exec :=
  exec SemaphoreLockDouble.acquire SemaphoreLockDouble.release.
Definition semd_run :=
  run SemaphoreLockDouble.acquire SemaphoreLockDouble.release.
Definition semd_reachable (l0 : SemaphoreLock.t) :=
  reachable SemaphoreLockDouble.acquire SemaphoreLockDouble.release l0.

(** The first number above [2^53]: [2^53 + 1] is not a number. *)
Definition above_exact : Z := 9007199254740994.

Record ql_inv (s : Sys QueueLock.t) : Prop := mk_ql_inv {
  ql_handoff : QueueLock.queue (lock s) <> [] -> QueueLock.locked (lock s) = true;
  ql_holder : length (held s) = if QueueLock.locked (lock s) then 1 else 0;
  ql_order : calls s = granted s ++ QueueLock.queue (lock s);
  ql_fresh : NoDup (calls s)
}.

Record sem_inv (k : Z) (s : Sys SemaphoreLock.t) : Prop := mk_sem_inv {
  sem_nonneg : (0 <= SemaphoreLock.permits (lock s))%Z;
  sem_count : (SemaphoreLock.permits (lock s) + Z.of_nat (length (held s)) = k)%Z;
  sem_handoff : SemaphoreLock.queue (lock s) <> [] ->
                SemaphoreLock.permits (lock s) = 0%Z;
  sem_order : calls s = granted s ++ SemaphoreLock.queue (lock s);
  sem_fresh : NoDup (calls s)
}.

(** SimpleLock: the threads past their [acquire] are one or none, as the
    flag says. *)
Definition sl_inv (s : SimpleLock.Sys) : Prop :=
  length (SimpleLock.holders s) =
  if SimpleLock.locked (SimpleLock.lock s) then 1 else 0.

(** ReadWriteLock: the counter and the flag count the release functions
    handed out and not yet invoked. *)
Record rw_inv (s : ReadWriteLock.Sys) : Prop := mk_rw_inv {
  rw_readers :
    ReadWriteLock.readers (ReadWriteLock.lock s) =
    Z.of_nat (length (ReadWriteLock.readHeld s));
  rw_writer :
    length (ReadWriteLock.writeHeld s) =
    if ReadWriteLock.writer (ReadWriteLock.lock s) then 1 else 0;
  rw_excl :
    ReadWriteLock.writer (ReadWriteLock.lock s) = true ->
    ReadWriteLock.readers (ReadWriteLock.lock s) = 0%Z;
  (* nobody is left in a queue with nothing to wait for *)
  rw_read_waits :
    ReadWriteLock.readQueue (ReadWriteLock.lock s) <> [] ->
    ReadWriteLock.writer (ReadWriteLock.lock s) = true \/
    ReadWriteLock.writeQueue (ReadWriteLock.lock s) <> [];
  rw_write_waits :
    ReadWriteLock.writeQueue (ReadWriteLock.lock s) <> [] ->
    ReadWriteLock.writer (ReadWriteLock.lock s) = true \/
    (0 < ReadWriteLock.readers (ReadWriteLock.lock s))%Z
}.

(** Reader/writer exclusivity, on the state of the lock. *)
Definition exclusive (l : ReadWriteLock.t) : Prop :=
  ((0 < ReadWriteLock.readers l)%Z -> ReadWriteLock.writer l = false) /\
  (ReadWriteLock.writer l = true -> ReadWriteLock.readers l = 0%Z).

(** A JavaScript number that is a positive integer. *)
Definition positive_integer (x : JS.number) : Prop :=
  exists (q : Q) (z : Z), x = JS.Finite q /\ Qeq q (inject_Z z) /\ (1 <= z)%Z.

(** A result of an operation of ReadWriteLock whose read grants, if any, are
    made with no writer active and none queued. *)
Definition read_grants_clear (r : ReadWriteLock.t * list ReadWriteLock.Grant) : Prop :=
  forall c, In (ReadWriteLock.Read, c) (snd r) ->
    ReadWriteLock.writer (fst r) = false /\ ReadWriteLock.writeQueue (fst r) = [].

(** A reader queued in [s] is still queued after the operation, or was
    granted by it. *)
Definition readers_kept (s : ReadWriteLock.t)
    (r : ReadWriteLock.t * list ReadWriteLock.Grant) : Prop :=
  forall c, In c (ReadWriteLock.readQueue s) ->
    In c (ReadWriteLock.readQueue (fst r)) \/ In (ReadWriteLock.Read, c) (snd r).

(** ** Scenarios *)

Definition ql_demo : list Op :=
  [Acquire 1; Acquire 2; Acquire 3; Release 1; Release 2].

Definition sem_demo : list Op :=
  [Acquire 1; Acquire 2; Acquire 3; Acquire 4; Acquire 5; Release 2; Release 1].

Definition sl_demo : list SimpleLock.Op :=
  [SimpleLock.Call 1; SimpleLock.Call 2; SimpleLock.Wake 2;
   SimpleLock.Release 1; SimpleLock.Wake 2].

Definition rw_demo : list ReadWriteLock.Op :=
  [ReadWriteLock.AcquireRead 1; ReadWriteLock.AcquireRead 2;
   ReadWriteLock.AcquireWrite 3; ReadWriteLock.AcquireRead 4;
   ReadWriteLock.ReleaseRead 1; ReadWriteLock.ReleaseRead 2;
   ReadWriteLock.AcquireRead 5].

Definition sem_demo_waiting : list Op :=
  [Acquire 1; Acquire 2; Acquire 3; Acquire 4; Acquire 5; Release 2].

(** A writer active, nobody waiting to write, three readers queued. *)
Definition rw_batch : ReadWriteLock.t := ReadWriteLock.mk 0 true [7; 8; 9] [].

(** A writer active, two writers and a reader queued. *)
Definition rw_handoff : ReadWriteLock.t := ReadWriteLock.mk 0 true [7] [4; 5].

(** The states the scenarios end in. *)
Definition ql_demo_state : Sys QueueLock.t :=
  mkSys (QueueLock.mk true []) [1; 2; 3] [1; 2; 3] [3].

Definition sem_demo_state : Sys SemaphoreLock.t :=
  mkSys (SemaphoreLock.mk 0 []) [1; 2; 3; 4; 5] [1; 2; 3; 4; 5] [3; 4; 5].

Definition sem_demo_waiting_state : Sys SemaphoreLock.t :=
  mkSys (SemaphoreLock.mk 0 [5]) [1; 2; 3; 4; 5] [1; 2; 3; 4] [1; 3; 4].

Definition sl_demo_state : SimpleLock.Sys :=
  SimpleLock.mkSys (SimpleLock.mk true 2000) [] [2]
    ["Thread 1 - Acquired lock"; "Thread 1 - Released lock";
     "Thread 2 - Acquired lock"]%string.

Definition rw_demo_state : ReadWriteLock.Sys :=
  ReadWriteLock.mkSys (ReadWriteLock.mk 0 true [4; 5] []) [1; 2; 3; 4; 5] [] [3].

(** ** Runs counted, drivers, and use outside the discipline *)

(** How many operations of a run call [acquire()], how many invoke a release
    function. *)
Definition is_release (op : Op) : bool :=
  match op with
  | Release _ => true
  | Acquire _ => false
  end.

Definition acquires (ops : list Op) : nat :=
  length (filter (fun op => negb (is_release op)) ops).

Definition releases (ops : list Op) : nat := length (filter is_release ops).

(** The operations on the lock of
    [Promise.all([executeDemo(1), ..., executeDemo(n)])] of QueueLock
    (src/queueLock.ts, lines 50-69).  Each [executeDemo] runs up to its
    [await queuedLocks.acquire()] when it is called, so the calls of
    [acquire()] come first, in the order of the array; a thread invokes its
    release function after its timer, and only the thread that was granted
    the lock has one. *)
Definition ql_demo_trace (threads : list Caller) : list Op :=
  map Acquire threads ++ map Release threads.

(** The two locks side by side: a SemaphoreLock with one permit against a
    QueueLock. *)
Definition ql_sem_match (a : Sys QueueLock.t) (b : Sys SemaphoreLock.t) : Prop :=
  calls a = calls b /\ granted a = granted b /\ held a = held b /\
  QueueLock.queue (lock a) = SemaphoreLock.queue (lock b) /\
  SemaphoreLock.permits (lock b) = if QueueLock.locked (lock a) then 0%Z else 1%Z.

(** Calls with no discipline at all: any caller may call [acquire()], and a
    release function may be invoked at any time, any number of times.  A run
    returns the lock and the promises resolved, in order. *)
Inductive RawOp : Type :=
| RawAcquire (c : Caller)
| RawRelease.

Section Raw.

Variable L : Type.
Variable acquire : Caller -> L -> L * list Caller.
Variable release : L -> L * list Caller.

Definition raw_exec (op : RawOp) (l : L) : L * list Caller :=
  match op with
  | RawAcquire c => acquire c l
  | RawRelease => release l
  end.

Fixpoint raw_run (ops : list RawOp) (l : L) : L * list Caller :=
  match ops with
  | [] => (l, [])
  | op :: rest =>
      let '(l1, out) := raw_exec op l in
      let '(l2, out') := raw_run rest l1 in
      (l2, out ++ out')
  end.

End Raw.

Definition raw_requests (ops : list RawOp) : list Caller :=
  flat_map (fun op => match op with RawAcquire c => [c] | RawRelease => [] end) ops.

(** The lines SimpleLock logs. *)
Definition acquired_line (threadId : nat) : string :=
  ("Thread " ++ SimpleLock.show threadId ++ " - Acquired lock")%string.

Definition released_line (threadId : nat) : string :=
  ("Thread " ++ SimpleLock.show threadId ++ " - Released lock")%string.

(** Thread [a] holds the SimpleLock and thread [b] polls it; [n] times over,
    the timer of [b] fires while [a] holds the lock, and [a] releases and
    calls [acquire] again before the timer fires next. *)
Fixpoint sl_rounds (a b : Caller) (n : nat) : list SimpleLock.Op :=
  match n with
  | O => []
  | S n' =>
      SimpleLock.Wake b :: SimpleLock.Release a :: SimpleLock.Call a
      :: sl_rounds a b n'
  end.

Definition sl_starve (a b : Caller) (n : nat) : list SimpleLock.Op :=
  SimpleLock.Call a :: SimpleLock.Call b :: sl_rounds a b n.

(** ReadWriteLock: the promises an operation resolves, the log of a run, and
    the requests of a run by mode. *)
Definition rw_out (op : ReadWriteLock.Op) (s : ReadWriteLock.Sys)
    : list ReadWriteLock.Grant :=
  match op with
  | ReadWriteLock.AcquireRead c =>
      snd (ReadWriteLock.acquireRead c (ReadWriteLock.lock s))
  | ReadWriteLock.AcquireWrite c =>
      snd (ReadWriteLock.acquireWrite c (ReadWriteLock.lock s))
  | ReadWriteLock.ReleaseRead _ =>
      snd (ReadWriteLock.releaseRead (ReadWriteLock.lock s))
  | ReadWriteLock.ReleaseWrite _ fuel =>
      match ReadWriteLock.releaseWrite fuel (ReadWriteLock.lock s) with
      | Some r => snd r
      | None => []
      end
  end.

Fixpoint rw_log (ops : list ReadWriteLock.Op) (s : ReadWriteLock.Sys)
    : list ReadWriteLock.Grant :=
  match ops with
  | [] => []
  | op :: rest =>
      match ReadWriteLock.exec op s with
      | Some s' => rw_out op s ++ rw_log rest s'
      | None => []
      end
  end.

Definition rw_request (m : ReadWriteLock.Mode) (op : ReadWriteLock.Op)
    : list Caller :=
  match m, op with
  | ReadWriteLock.Read, ReadWriteLock.AcquireRead c => [c]
  | ReadWriteLock.Write, ReadWriteLock.AcquireWrite c => [c]
  | _, _ => []
  end.

Definition rw_requests (m : ReadWriteLock.Mode) (ops : list ReadWriteLock.Op)
    : list Caller :=
  flat_map (rw_request m) ops.

Definition rw_waiting (m : ReadWriteLock.Mode) (l : ReadWriteLock.t)
    : list Caller :=
  match m with
  | ReadWriteLock.Read => ReadWriteLock.readQueue l
  | ReadWriteLock.Write => ReadWriteLock.writeQueue l
  end.

Definition rw_is_release (op : ReadWriteLock.Op) : bool :=
  match op with
  | ReadWriteLock.ReleaseRead _ | ReadWriteLock.ReleaseWrite _ _ => true
  | _ => false
  end.

Definition rw_acquires (ops : list ReadWriteLock.Op) : nat :=
  length (filter (fun op => negb (rw_is_release op)) ops).

Definition rw_releases (ops : list ReadWriteLock.Op) : nat :=
  length (filter rw_is_release ops).

(** A result of an operation of ReadWriteLock whose write grant, if any, is
    its only grant and leaves that writer alone in the lock. *)
Definition write_grant_exclusive
    (r : ReadWriteLock.t * list ReadWriteLock.Grant) : Prop :=
  forall c, In (ReadWriteLock.Write, c) (snd r) ->
    snd r = [(ReadWriteLock.Write, c)] /\
    ReadWriteLock.writer (fst r) = true /\
    ReadWriteLock.readers (fst r) = 0%Z.

(** A stream of writers: writer [i] holds the lock; [n] times over, the next
    writer calls [acquireWrite()] and the holder then releases. *)
Fixpoint writer_stream (i n : nat) : list ReadWriteLock.Op :=
  match n with
  | O => []
  | S n' =>
      ReadWriteLock.AcquireWrite (S i) :: ReadWriteLock.ReleaseWrite i 0
      :: writer_stream (S i) n'
  end.

(** Writer 1 takes the lock, reader 0 asks to read, writers 2, 3, ... follow. *)
Definition rw_starve (n : nat) : list ReadWriteLock.Op :=
  ReadWriteLock.AcquireWrite 1 :: ReadWriteLock.AcquireRead 0 :: writer_stream 1 n.

(** * Properties *)

(** ** Lists *)

Lemma mem_In (c : Caller) (l : list Caller) : mem c l = true <-> In c l.
Proof.
  unfold mem. rewrite existsb_exists. split.
  - intros (x & Hx & E). apply Nat.eqb_eq in E. now subst.
  - intros H. exists c. split; [assumption | apply Nat.eqb_refl].
Qed.

Lemma mem_false (c : Caller) (l : list Caller) : mem c l = false <-> ~ In c l.
Proof.
  rewrite <- mem_In. destruct (mem c l); split; congruence.
Qed.

Lemma remove1_length (c : Caller) (l : list Caller) :
  In c l -> S (length (remove1 c l)) = length l.
Proof.
  induction l as [|x l IH]; simpl; [tauto|].
  intros H. destruct (Nat.eqb_spec c x) as [E|N]; [reflexivity|].
  simpl. f_equal. apply IH. destruct H; [congruence | assumption].
Qed.

Lemma snoc_not_nil (A : Type) (l : list A) (x : A) : l ++ [x] <> [].
Proof.
  destruct l; discriminate.
Qed.

Lemma NoDup_snoc (A : Type) (l : list A) (x : A) :
  NoDup l -> ~ In x l -> NoDup (l ++ [x]).
Proof.
  intros Hl Hx. apply NoDup_app; [assumption | repeat constructor; simpl; tauto |].
  intros y Hy [E|[]]. subst. tauto.
Qed.

(** In a list without repetition an element splits the list in one way. *)
Lemma NoDup_pivot (A : Type) (b : A) (x1 y1 x2 y2 : list A) :
  NoDup (x1 ++ b :: y1) -> x1 ++ b :: y1 = x2 ++ b :: y2 -> x1 = x2 /\ y1 = y2.
Proof.
  revert x2. induction x1 as [|a x1 IH]; intros [|a' x2] Hnd E; simpl in *.
  - injection E as E. auto.
  - injection E as E1 E2. subst a'. inversion Hnd as [|? ? Hn _]; subst.
    exfalso. apply Hn. apply in_or_app. right. left. reflexivity.
  - injection E as E1 E2. subst a. inversion Hnd as [|? ? Hn _]; subst.
    exfalso. apply Hn. apply in_or_app. right. left. reflexivity.
  - injection E as E1 E2. subst a'. inversion Hnd as [|? ? _ Hnd']; subst.
    destruct (IH x2 Hnd' E2) as [-> ->]. auto.
Qed.

(** Grants that follow the calls in order keep the order of any two calls. *)
Lemma prefix_keeps_order (A : Type) (a b : A) (calls granted waiting : list A) :
  calls = granted ++ waiting -> NoDup calls ->
  before a b calls -> In b granted -> before a b granted.
Proof.
  intros E Hnd (l1 & l2 & l3 & Hc) Hb.
  apply in_split in Hb. destruct Hb as (g1 & g2 & Hg).
  assert (Hp : (l1 ++ a :: l2) ++ b :: l3 = g1 ++ b :: (g2 ++ waiting)).
  { rewrite <- app_assoc. simpl. rewrite <- Hc, E, Hg, <- app_assoc. reflexivity. }
  apply NoDup_pivot in Hp.
  - destruct Hp as [Hp _]. exists l1, l2, g2. rewrite Hg, <- Hp, <- app_assoc.
    reflexivity.
  - rewrite <- app_assoc. simpl. rewrite <- Hc. assumption.
Qed.

(** ** Runs are reachable *)

Section Runs.

Variable L : Type.
Variable acquire : Caller -> L -> L * list Caller.
Variable release : L -> L * list Caller.

Lemma run_from_reachable (l0 : L) (ops : list Op) :
  forall s s', reachable acquire release l0 s ->
    run acquire release ops s = Some s' -> reachable acquire release l0 s'.
Proof.
  induction ops as [|op ops IH]; simpl; intros s s' Hs Hr.
  - injection Hr as <-. assumption.
  - destruct (exec acquire release op s) as [s1|] eqn:E; [|discriminate].
    eapply IH; [|eassumption]. eapply reach_step; eassumption.
Qed.

Lemma run_reachable (l0 : L) (ops : list Op) (s : Sys L) :
  run acquire release ops (start l0) = Some s -> reachable acquire release l0 s.
Proof.
  apply run_from_reachable. constructor.
Qed.

End Runs.

(** ** QueueLock: the invariant *)

Lemma ql_inv_start : ql_inv (start QueueLock.init).
Proof.
  constructor; simpl; auto using NoDup_nil; congruence.
Qed.

Lemma ql_inv_step (s s' : Sys QueueLock.t) (op : Op) :
  ql_inv s -> ql_exec op s = Some s' -> ql_inv s'.
Proof.
  destruct s as [[b q] cs gr hd]. intros [H1 H2 H3 H4]. simpl in *.
  unfold ql_exec, exec. destruct op as [c|c]; simpl.
  - destruct (mem c cs) eqn:M; [discriminate|]. apply mem_false in M.
    unfold QueueLock.acquire, QueueLock.tryAcquire, push. simpl.
    destruct b; simpl; intros [= <-]; constructor; simpl;
      rewrite ?app_nil_r; auto using NoDup_snoc.
    + rewrite H3, <- app_assoc. reflexivity.
    + rewrite length_app, H2. reflexivity.
    + destruct q as [|x q]; [|now discriminate H1].
      rewrite H3, !app_nil_r. reflexivity.
  - destruct (mem c hd) eqn:M; [|discriminate]. apply mem_In in M.
    pose proof (remove1_length c hd M) as Hl.
    destruct b; [|rewrite H2 in Hl; discriminate].
    assert (Hr : remove1 c hd = []).
    { destruct (remove1 c hd); [reflexivity|]. simpl in Hl. lia. }
    rewrite Hr. unfold QueueLock.release, QueueLock.tryAcquire. simpl.
    destruct q as [|x q]; simpl; intros [= <-]; constructor; simpl;
      rewrite ?app_nil_r; try assumption; try reflexivity; try congruence.
    + rewrite H3. apply app_nil_r.
    + rewrite H3, <- app_assoc. reflexivity.
Qed.

Lemma ql_inv_reachable (s : Sys QueueLock.t) : ql_reachable s -> ql_inv s.
Proof.
  induction 1 as [|s op s' _ IH E].
  - apply ql_inv_start.
  - eapply ql_inv_step; eassumption.
Qed.

(** ** SemaphoreLock: the invariant *)

Lemma sem_inv_start (k : Z) :
  (0 <= k)%Z -> sem_inv k (start (SemaphoreLock.init k)).
Proof.
  intros Hk. constructor; simpl; auto using NoDup_nil; try congruence. lia.
Qed.

Lemma sem_inv_step (k : Z) (s s' : Sys SemaphoreLock.t) (op : Op) :
  sem_inv k s -> sem_exec op s = Some s' -> sem_inv k s'.
Proof.
  destruct s as [[p q] cs gr hd]. intros [H0 H1 H2 H3 H4]. simpl in *.
  unfold sem_exec, exec. destruct op as [c|c]; simpl.
  - destruct (mem c cs) eqn:M; [discriminate|]. apply mem_false in M.
    unfold SemaphoreLock.acquire, SemaphoreLock.tryAcquire, push. simpl.
    destruct (Z.ltb_spec 0 p) as [Hp|Hp]; simpl; intros [= <-];
      constructor; simpl; rewrite ?app_nil_r; auto using NoDup_snoc.
    + lia.
    + rewrite length_app. simpl. lia.
    + intros Hq. apply H2 in Hq. lia.
    + destruct q as [|x q]; [|assert (p = 0%Z) by (apply H2; discriminate); lia].
      rewrite H3, !app_nil_r. reflexivity.
    + intros _. lia.
    + rewrite H3, <- app_assoc. reflexivity.
  - destruct (mem c hd) eqn:M; [|discriminate]. apply mem_In in M.
    pose proof (remove1_length c hd M) as Hl.
    unfold SemaphoreLock.release, SemaphoreLock.tryAcquire. simpl.
    destruct q as [|x q]; simpl.
    + intros [= <-]. constructor; simpl; rewrite ?app_nil_r; auto; try lia.
      * congruence.
      * rewrite H3. apply app_nil_r.
    + assert (Hp : p = 0%Z) by (apply H2; discriminate). subst p. simpl.
      intros [= <-]. constructor; simpl; auto; try lia.
      * rewrite length_app. simpl. lia.
      * rewrite H3, <- app_assoc. reflexivity.
Qed.

Lemma sem_inv_reachable (k : Z) (s : Sys SemaphoreLock.t) :
  (0 <= k)%Z -> sem_reachable k s -> sem_inv k s.
Proof.
  intros Hk. induction 1 as [|s op s' _ IH E].
  - apply sem_inv_start. assumption.
  - eapply sem_inv_step; eassumption.
Qed.

(** ** SimpleLock: the invariant *)

Lemma sl_inv_step (s s' : SimpleLock.Sys) (op : SimpleLock.Op) :
  sl_inv s -> SimpleLock.exec op s = Some s' -> sl_inv s'.
Proof.
  destruct s as [[b w] ws hs out]. unfold sl_inv. simpl. intros H.
  assert (Hres : forall c rest,
    sl_inv (SimpleLock.resume c (SimpleLock.mkSys (SimpleLock.mk b w) ws hs out) rest)).
  { intros c rest. unfold sl_inv, SimpleLock.resume, SimpleLock.acquire. simpl.
    destruct b; simpl; [assumption|]. rewrite length_app, H. reflexivity. }
  destruct op as [c|c|c]; simpl.
  - destruct (mem c ws || mem c hs); [discriminate|]. intros [= <-]. apply Hres.
  - destruct (mem c ws); [|discriminate]. intros [= <-]. apply Hres.
  - destruct (mem c hs) eqn:M; [|discriminate]. apply mem_In in M.
    intros [= <-]. simpl. pose proof (remove1_length c hs M) as Hl.
    destruct b; lia.
Qed.

Lemma sl_inv_reachable (l0 : SimpleLock.t) (s : SimpleLock.Sys) :
  SimpleLock.locked l0 = false -> SimpleLock.reachable l0 s -> sl_inv s.
Proof.
  intros H0. induction 1 as [|s op s' _ IH E].
  - unfold sl_inv. simpl. rewrite H0. reflexivity.
  - eapply sl_inv_step; eassumption.
Qed.

Lemma sl_run_reachable (l0 : SimpleLock.t) (ops : list SimpleLock.Op) :
  forall s s', SimpleLock.reachable l0 s ->
    SimpleLock.run ops s = Some s' -> SimpleLock.reachable l0 s'.
Proof.
  induction ops as [|op ops IH]; simpl; intros s s' Hs Hr.
  - injection Hr as <-. assumption.
  - destruct (SimpleLock.exec op s) as [s1|] eqn:E; [|discriminate].
    eapply IH; [|eassumption]. eapply SimpleLock.reach_step; eassumption.
Qed.

(** ** ReadWriteLock: the loop of [releaseWrite] *)

Lemma grants_read_readers (rq : list Caller) :
  ReadWriteLock.grants ReadWriteLock.Read (map (pair ReadWriteLock.Read) rq) = rq.
Proof.
  unfold ReadWriteLock.grants. induction rq as [|x rq IH]; simpl; congruence.
Qed.

Lemma grants_write_readers (rq : list Caller) :
  ReadWriteLock.grants ReadWriteLock.Write (map (pair ReadWriteLock.Read) rq) = [].
Proof.
  unfold ReadWriteLock.grants. induction rq as [|x rq IH]; simpl; congruence.
Qed.

(** With no writer active and none queued, the loop takes one iteration per
    queued reader and grants each of them: it ends if and only if it is given
    that many iterations. *)
Lemma wakeReaders_batch (fuel : nat) :
  forall (r : Z) (rq : list Caller),
    ReadWriteLock.wakeReaders fuel (ReadWriteLock.mk r false rq []) =
    if (length rq <=? fuel)%nat then
      Some (ReadWriteLock.mk (r + Z.of_nat (length rq)) false [] [],
            map (pair ReadWriteLock.Read) rq)
    else None.
Proof.
  induction fuel as [|fuel IH]; intros r [|x rq]; simpl.
  - rewrite Z.add_0_r. reflexivity.
  - reflexivity.
  - rewrite Z.add_0_r. reflexivity.
  - rewrite IH. destruct (length rq <=? fuel)%nat; [|reflexivity].
    do 3 f_equal. lia.
Qed.

(** A reader woken while a writer is active goes back to the queue: the loop
    on its own does not end then, whatever the number of iterations. *)
Lemma wakeReaders_spins (fuel : nat) :
  forall (r : Z) (x : Caller) (rq wq : list Caller),
    ReadWriteLock.wakeReaders fuel (ReadWriteLock.mk r true (x :: rq) wq) = None.
Proof.
  induction fuel as [|fuel IH]; intros r x rq wq; simpl; [reflexivity|].
  unfold push. destruct rq as [|y rq]; simpl; rewrite IH; reflexivity.
Qed.

(** ** ReadWriteLock: the invariant *)

Ltac rw_close :=
  constructor; simpl; rewrite ?app_nil_r, ?length_app; simpl;
  auto; try lia; try congruence;
  try (intros _;
       first [left; reflexivity | right; discriminate | right; lia
             | right; apply snoc_not_nil]).

Lemma rw_inv_step (s s' : ReadWriteLock.Sys) (op : ReadWriteLock.Op) :
  rw_inv s -> ReadWriteLock.exec op s = Some s' -> rw_inv s'.
Proof.
  destruct s as [[r w rq wq] cs rh wh]. intros [H1 H2 H3 H4 H5]. simpl in *.
  destruct op as [c|c|c|c fuel]; simpl.
  - destruct (mem c cs); [discriminate|]. intros [= <-].
    unfold ReadWriteLock.acquireRead, ReadWriteLock.tryAcquireRead,
      ReadWriteLock.settle, push. simpl.
    destruct w, wq; simpl; rw_close.
  - destruct (mem c cs); [discriminate|]. intros [= <-].
    unfold ReadWriteLock.acquireWrite, ReadWriteLock.tryAcquireWrite,
      ReadWriteLock.settle, push. simpl.
    destruct w; simpl; [rw_close|].
    destruct (Z.eqb_spec r 0); simpl; rw_close.
  - destruct (mem c rh) eqn:M; [|discriminate]. apply mem_In in M.
    pose proof (remove1_length c rh M) as Hl. intros [= <-].
    assert (Hw : w = false).
    { destruct w; [|reflexivity]. specialize (H3 eq_refl). lia. }
    subst w. unfold ReadWriteLock.releaseRead, ReadWriteLock.tryAcquireWrite,
      ReadWriteLock.settle. simpl.
    destruct (Z.eqb_spec (r - 1) 0) as [E|N]; simpl.
    + destruct wq as [|x wq]; simpl.
      * rw_close.
      * rewrite E. simpl. rw_close.
    + rw_close.
  - destruct (mem c wh) eqn:M; [|discriminate]. apply mem_In in M.
    pose proof (remove1_length c wh M) as Hl.
    assert (Hw : w = true).
    { destruct w; [reflexivity|]. rewrite H2 in Hl. discriminate. }
    subst w. specialize (H3 eq_refl).
    assert (Hwh : remove1 c wh = []).
    { destruct (remove1 c wh); [reflexivity|]. simpl in Hl. lia. }
    assert (Hrh : rh = []).
    { destruct rh; [reflexivity|]. simpl in H1. lia. }
    clear H1. subst rh r. rewrite Hwh.
    unfold ReadWriteLock.releaseWrite, ReadWriteLock.tryAcquireWrite,
      ReadWriteLock.settle. simpl.
    destruct wq as [|x wq]; simpl.
    + rewrite wakeReaders_batch. destruct (length rq <=? fuel)%nat; [|discriminate].
      intros [= <-]. simpl. rewrite grants_read_readers, grants_write_readers.
      rw_close.
    + intros [= <-]. rw_close.
Qed.

Lemma rw_inv_reachable (s : ReadWriteLock.Sys) :
  ReadWriteLock.reachable ReadWriteLock.init s -> rw_inv s.
Proof.
  induction 1 as [|s op s' _ IH E].
  - constructor; simpl; auto; congruence.
  - eapply rw_inv_step; eassumption.
Qed.

Lemma rw_run_reachable (l0 : ReadWriteLock.t) (ops : list ReadWriteLock.Op) :
  forall s s', ReadWriteLock.reachable l0 s ->
    ReadWriteLock.run ops s = Some s' -> ReadWriteLock.reachable l0 s'.
Proof.
  induction ops as [|op ops IH]; simpl; intros s s' Hs Hr.
  - injection Hr as <-. assumption.
  - destruct (ReadWriteLock.exec op s) as [s1|] eqn:E; [|discriminate].
    eapply IH; [|eassumption]. eapply ReadWriteLock.reach_step; eassumption.
Qed.

(** ** The constructor of SemaphoreLock *)

Lemma Number_isInteger_spec (q : Q) :
  JS.Number_isInteger (JS.Finite q) = true <-> exists z, Qeq q (inject_Z z).
Proof.
  unfold JS.Number_isInteger. rewrite Qeq_bool_iff. split.
  - intros H. exists (Qfloor q). symmetry. assumption.
  - intros [z Hz]. rewrite (Qfloor_comp _ _ Hz), Qfloor_Z. symmetry. exact Hz.
Qed.

Lemma lt_one_spec (q : Q) (z : Z) :
  Qeq q (inject_Z z) ->
  JS.lt (JS.Finite q) (JS.of_Z 1) = false <-> (1 <= z)%Z.
Proof.
  intros Hz. unfold JS.lt, JS.of_Z.
  rewrite negb_false_iff, Qle_bool_iff, Zle_Qle. split; intros H.
  - rewrite <- Hz. exact H.
  - rewrite Hz. exact H.
Qed.

Lemma sem_new_positive (x : JS.number) :
  positive_integer x ->
  exists q z, x = JS.Finite q /\ Qeq q (inject_Z z) /\ (1 <= z)%Z /\
    SemaphoreLock.new x = inr (SemaphoreLock.init z).
Proof.
  intros (q & z & -> & Hq & Hz). exists q, z. repeat split; try assumption.
  unfold SemaphoreLock.new.
  assert (H1 : JS.Number_isInteger (JS.Finite q) = true)
    by (apply Number_isInteger_spec; exists z; assumption).
  assert (H2 : JS.lt (JS.Finite q) (JS.of_Z 1) = false)
    by (apply (lt_one_spec Hq); assumption).
  rewrite H1, H2. simpl. rewrite (Qfloor_comp _ _ Hq), Qfloor_Z. reflexivity.
Qed.

Lemma sem_new_inr (x : JS.number) (l : SemaphoreLock.t) :
  SemaphoreLock.new x = inr l -> positive_integer x.
Proof.
  unfold SemaphoreLock.new.
  destruct (JS.Number_isInteger x) eqn:H1; simpl; [|discriminate].
  destruct (JS.lt x (JS.of_Z 1)) eqn:H2; [discriminate|].
  destruct x as [q| | |]; try discriminate. intros _.
  apply Number_isInteger_spec in H1. destruct H1 as [z Hz].
  exists q, z. repeat split; try assumption. apply (lt_one_spec Hz). assumption.
Qed.

Lemma sem_new_of_Z (k : Z) (l0 : SemaphoreLock.t) :
  SemaphoreLock.new (JS.of_Z k) = inr l0 ->
  (1 <= k)%Z /\ l0 = SemaphoreLock.init k.
Proof.
  intros H. pose proof (sem_new_inr _ H) as Hp.
  apply sem_new_positive in Hp. destruct Hp as (q & z & E & Hq & Hz & Hn).
  unfold JS.of_Z in E. injection E as <-.
  apply (proj1 (inject_Z_injective _ _)) in Hq. subst z.
  split; [assumption|]. congruence.
Qed.

Lemma sem_reachable_new (k : Z) (l0 : SemaphoreLock.t) (s : Sys SemaphoreLock.t) :
  SemaphoreLock.new (JS.of_Z k) = inr l0 ->
  reachable SemaphoreLock.acquire SemaphoreLock.release l0 s ->
  (1 <= k)%Z /\ sem_inv k s.
Proof.
  intros Hn Hr. apply sem_new_of_Z in Hn. destruct Hn as [Hk ->].
  split; [assumption|]. apply sem_inv_reachable; [lia | exact Hr].
Qed.

(** ** SemaphoreLock with the arithmetic of JavaScript numbers *)

Lemma round_double_exact (z : Z) :
  (Z.abs z <= JS.MAX_EXACT)%Z -> JS.round_double z = z.
Proof.
  unfold JS.round_double, JS.MAX_EXACT. intros H.
  destruct (Z.ltb_spec (Z.abs z) 9007199254740992) as [_|Hge]; [reflexivity|].
  assert (Hz : z = 9007199254740992%Z \/ z = (-9007199254740992)%Z) by lia.
  destruct Hz as [-> | ->]; vm_compute; reflexivity.
Qed.

Lemma decrement_exact (p : Z) :
  (0 < p <= JS.MAX_EXACT)%Z -> JS.decrement p = (p - 1)%Z.
Proof.
  intros H. apply round_double_exact. unfold JS.MAX_EXACT in *. lia.
Qed.

Lemma increment_exact (p : Z) :
  (0 <= p < JS.MAX_EXACT)%Z -> JS.increment p = (p + 1)%Z.
Proof.
  intros H. apply round_double_exact. unfold JS.MAX_EXACT in *. lia.
Qed.

(** With at most [2^53] permits, no step of callers that acquire and release
    rounds: the semaphore computes on numbers what it computes on integers. *)
Lemma semd_exec_exact (k : Z) (s : Sys SemaphoreLock.t) (op : Op) :
  (k <= JS.MAX_EXACT)%Z -> sem_inv k s -> semd_exec op s = sem_exec op s.
Proof.
  destruct s as [[p q] cs gr hd]. intros Hk [H0 H1 _ _ _]. simpl in *.
  unfold semd_exec, sem_exec, exec. destruct op as [c|c]; simpl.
  - destruct (mem c cs); [reflexivity|].
    unfold SemaphoreLockDouble.acquire, SemaphoreLockDouble.tryAcquire,
      SemaphoreLock.acquire, SemaphoreLock.tryAcquire. simpl.
    destruct (Z.ltb_spec 0 p) as [Hp|Hp]; [|reflexivity].
    rewrite decrement_exact by lia. reflexivity.
  - destruct (mem c hd) eqn:M; [|reflexivity]. apply mem_In in M.
    pose proof (remove1_length c hd M) as Hl.
    unfold SemaphoreLockDouble.release, SemaphoreLockDouble.tryAcquire,
      SemaphoreLock.release, SemaphoreLock.tryAcquire. simpl.
    rewrite increment_exact by lia.
    destruct q as [|x q]; simpl; [reflexivity|].
    destruct (Z.ltb_spec 0 (p + 1)) as [Hp|Hp]; [|reflexivity].
    rewrite decrement_exact by lia. reflexivity.
Qed.

Lemma semd_run_exact (k : Z) (ops : list Op) :
  (k <= JS.MAX_EXACT)%Z ->
  forall s, sem_inv k s -> semd_run ops s = sem_run ops s.
Proof.
  intros Hk. unfold semd_run, sem_run.
  induction ops as [|op ops IH]; intros s Hs; simpl; [reflexivity|].
  pose proof (semd_exec_exact op Hk Hs) as E. unfold semd_exec, sem_exec in E.
  rewrite E.
  destruct (exec SemaphoreLock.acquire SemaphoreLock.release op s) as [s1|] eqn:E1;
    [|reflexivity].
  apply IH. eapply sem_inv_step; eassumption.
Qed.

Lemma semd_reachable_exact (k : Z) (s : Sys SemaphoreLock.t) :
  (0 <= k <= JS.MAX_EXACT)%Z ->
  semd_reachable (SemaphoreLock.init k) s -> sem_reachable k s.
Proof.
  intros Hk. induction 1 as [|s op s' _ IH E].
  - constructor.
  - apply reach_step with (s := s) (op := op); [assumption|].
    pose proof (sem_inv_reachable (proj1 Hk) IH) as Hi.
    pose proof (semd_exec_exact op (proj2 Hk) Hi) as Ee.
    unfold semd_exec, sem_exec in Ee. rewrite <- Ee. exact E.
Qed.

(** * The claims *)

(** C1. Mutual exclusion of QueueLock and SimpleLock.  In every state that
    callers reach by acquiring and releasing in any interleaving, at most one
    release function of a QueueLock is handed out and not yet invoked, and at
    most one thread of a SimpleLock is past its [acquire] without having
    released; whenever there is one, the flag [locked] is set. *)
Theorem mutual_exclusion :
  (forall s : Sys QueueLock.t, ql_reachable s ->
     length (held s) <= 1 /\
     (held s <> [] -> QueueLock.locked (lock s) = true)) /\
  (forall (w : Z) (s : SimpleLock.Sys),
     SimpleLock.reachable (SimpleLock.new w) s ->
     length (SimpleLock.holders s) <= 1 /\
     (SimpleLock.holders s <> [] ->
      SimpleLock.locked (SimpleLock.lock s) = true)).
Proof.
  split.
  - intros s Hs. apply ql_inv_reachable in Hs. destruct Hs as [_ H _ _].
    destruct (QueueLock.locked (lock s)); split; try lia; auto.
    destruct (held s); [congruence | discriminate].
  - intros w s Hs. apply sl_inv_reachable in Hs; [|reflexivity].
    unfold sl_inv in Hs.
    destruct (SimpleLock.locked (SimpleLock.lock s)); split; try lia; auto.
    destruct (SimpleLock.holders s); [congruence | discriminate].
Qed.

Lemma mutual_exclusion_witness :
  (ql_run ql_demo (start QueueLock.init) = Some ql_demo_state /\
   length (held ql_demo_state) <= 1) /\
  (SimpleLock.run sl_demo (SimpleLock.start (SimpleLock.new 2000)) =
     Some sl_demo_state /\
   length (SimpleLock.holders sl_demo_state) <= 1).
Proof.
  split; (split; [vm_compute; reflexivity|]).
  - apply (proj1 mutual_exclusion).
    apply run_reachable with (ops := ql_demo). vm_compute. reflexivity.
  - apply (proj2 mutual_exclusion 2000%Z).
    apply sl_run_reachable
      with (ops := sl_demo) (s := SimpleLock.start (SimpleLock.new 2000));
      [constructor | vm_compute; reflexivity].
Defined.

(** C2. FIFO order of QueueLock and SemaphoreLock.  The promises resolved so
    far are, in order, the first calls of [acquire()], and the calls not yet
    granted are the queue: so of two callers, the one who called [acquire()]
    first is granted first, whether they had to wait or not. *)
Theorem fifo_order :
  (forall s : Sys QueueLock.t, ql_reachable s ->
     calls s = granted s ++ QueueLock.queue (lock s) /\
     forall a b, before a b (calls s) -> In b (granted s) ->
                 before a b (granted s)) /\
  (forall (k : Z) (l0 : SemaphoreLock.t) (s : Sys SemaphoreLock.t),
     SemaphoreLock.new (JS.of_Z k) = inr l0 ->
     reachable SemaphoreLock.acquire SemaphoreLock.release l0 s ->
     calls s = granted s ++ SemaphoreLock.queue (lock s) /\
     forall a b, before a b (calls s) -> In b (granted s) ->
                 before a b (granted s)).
Proof.
  split.
  - intros s Hs. apply ql_inv_reachable in Hs. destruct Hs as [_ _ Ho Hf].
    split; [assumption|]. intros a b. eapply prefix_keeps_order; eassumption.
  - intros k l0 s Hn Hs. destruct (sem_reachable_new _ Hn Hs) as [_ [_ _ _ Ho Hf]].
    split; [assumption|]. intros a b. eapply prefix_keeps_order; eassumption.
Qed.

Lemma fifo_order_witness :
  (ql_run ql_demo (start QueueLock.init) = Some ql_demo_state /\
   before 2 3 (granted ql_demo_state)) /\
  (sem_run sem_demo (start (SemaphoreLock.init 3)) = Some sem_demo_state /\
   before 4 5 (granted sem_demo_state)).
Proof.
  split; (split; [vm_compute; reflexivity|]).
  - apply (proj1 fifo_order).
    + apply run_reachable with (ops := ql_demo). vm_compute. reflexivity.
    + exists [1], [], []. reflexivity.
    + simpl. tauto.
  - apply (proj2 fifo_order 3%Z (SemaphoreLock.init 3)).
    + vm_compute. reflexivity.
    + apply run_reachable with (ops := sem_demo). vm_compute. reflexivity.
    + exists [1; 2; 3], [], []. reflexivity.
    + simpl. tauto.
Defined.

(** C3. The bound of SemaphoreLock, for a semaphore constructed with
    [k <= 2^53] permits.  In every state reached by callers that acquire and
    invoke each release function at most once: [0 <= permits <= k], at most
    [k] release functions are handed out and not yet invoked, and [permits]
    is [k] less their number.  A call of [acquire()] takes [permits] down by
    one for the promise it resolves, and the invocation of a release function
    that is out takes it up by one, and down by one again for the promise it
    resolves. *)
Theorem semaphore_bound (k : Z) (l0 : SemaphoreLock.t) (s : Sys SemaphoreLock.t) :
  (k <= JS.MAX_EXACT)%Z ->
  SemaphoreLock.new (JS.of_Z k) = inr l0 ->
  semd_reachable l0 s ->
  (0 <= SemaphoreLock.permits (lock s) <= k)%Z /\
  (Z.of_nat (length (held s)) <= k)%Z /\
  (SemaphoreLock.permits (lock s) + Z.of_nat (length (held s)) = k)%Z /\
  (forall c,
     let r := SemaphoreLockDouble.acquire c (lock s) in
     SemaphoreLock.permits (fst r) =
     SemaphoreLock.permits (lock s) - Z.of_nat (length (snd r)))%Z /\
  (held s <> [] ->
   let r := SemaphoreLockDouble.release (lock s) in
   SemaphoreLock.permits (fst r) =
   SemaphoreLock.permits (lock s) + 1 - Z.of_nat (length (snd r)))%Z.
Proof.
  intros Hmax Hn Hs. apply sem_new_of_Z in Hn. destruct Hn as [Hk ->].
  apply semd_reachable_exact in Hs; [|lia].
  pose proof (sem_inv_reachable (k := k) ltac:(lia) Hs) as [H0 H1 _ _ _].
  destruct s as [[p q] cs gr hd]. simpl in *.
  split; [lia|]. split; [lia|]. split; [lia|]. split.
  - intros c. unfold SemaphoreLockDouble.acquire, SemaphoreLockDouble.tryAcquire.
    simpl. destruct (Z.ltb_spec 0 p) as [Hp|Hp]; simpl; [|lia].
    rewrite decrement_exact by lia. lia.
  - intros Hh. assert (Hl : 0 < length hd) by (destruct hd; [congruence | simpl; lia]).
    unfold SemaphoreLockDouble.release, SemaphoreLockDouble.tryAcquire. simpl.
    rewrite increment_exact by lia.
    destruct q as [|x q]; simpl; [lia|].
    destruct (Z.ltb_spec 0 (p + 1)) as [Hp|Hp]; simpl; [|lia].
    rewrite decrement_exact by lia. lia.
Qed.

Lemma semaphore_bound_witness :
  semd_run sem_demo (start (SemaphoreLock.init 3)) = Some sem_demo_state /\
  (0 <= SemaphoreLock.permits (lock sem_demo_state) <= 3)%Z /\
  (Z.of_nat (length (held sem_demo_state)) <= 3)%Z.
Proof.
  split; [vm_compute; reflexivity|].
  assert (Hk : (3 <= JS.MAX_EXACT)%Z) by (vm_compute; discriminate).
  assert (Hn : SemaphoreLock.new (JS.of_Z 3) = inr (SemaphoreLock.init 3))
    by (vm_compute; reflexivity).
  assert (Hr : semd_reachable (SemaphoreLock.init 3) sem_demo_state)
    by (apply run_reachable with (ops := sem_demo); vm_compute; reflexivity).
  destruct (semaphore_bound Hk Hn Hr) as (H1 & H2 & _).
  split; assumption.
Defined.

(** Above [2^53] the claim fails.  The constructor takes [2^53 + 2]; the
    first [acquire()] is granted and leaves [permits] at [2^53], two less, and
    the invocation of its release function leaves it there: after a matched
    acquire and release, with no release function out, [permits] is not
    [k]. *)
Lemma semaphore_bound_fails_above_exact :
  SemaphoreLock.new (JS.of_Z above_exact) = inr (SemaphoreLock.init above_exact) /\
  SemaphoreLockDouble.acquire 1 (SemaphoreLock.init above_exact) =
    (SemaphoreLock.mk 9007199254740992 [], [1]) /\
  SemaphoreLock.permits
    (fst (SemaphoreLockDouble.acquire 1 (SemaphoreLock.init above_exact))) <>
    (SemaphoreLock.permits (SemaphoreLock.init above_exact) - 1)%Z /\
  SemaphoreLockDouble.release (SemaphoreLock.mk 9007199254740992 []) =
    (SemaphoreLock.mk 9007199254740992 [], []) /\
  semd_run [Acquire 1; Release 1] (start (SemaphoreLock.init above_exact)) =
    Some (mkSys (SemaphoreLock.mk 9007199254740992 []) [1] [1] []) /\
  ~ (forall s : Sys SemaphoreLock.t,
       semd_reachable (SemaphoreLock.init above_exact) s ->
       (SemaphoreLock.permits (lock s) + Z.of_nat (length (held s)) =
        above_exact)%Z).
Proof.
  split; [vm_compute; reflexivity|].
  split; [vm_compute; reflexivity|].
  split; [vm_compute; discriminate|].
  split; [vm_compute; reflexivity|].
  split; [vm_compute; reflexivity|].
  intros H.
  specialize (H (mkSys (SemaphoreLock.mk 9007199254740992 []) [1] [1] [])).
  assert (Hr : semd_reachable (SemaphoreLock.init above_exact)
                 (mkSys (SemaphoreLock.mk 9007199254740992 []) [1] [1] [])).
  { apply run_reachable with (ops := [Acquire 1; Release 1]).
    vm_compute. reflexivity. }
  apply H in Hr. vm_compute in Hr. discriminate.
Qed.

(** C9. SemaphoreLock between operations: while a permit is available nobody
    is queued, and while somebody is queued no permit is available. *)
Theorem sem_waiters_no_permits (k : Z) (l0 : SemaphoreLock.t) (s : Sys SemaphoreLock.t) :
  SemaphoreLock.new (JS.of_Z k) = inr l0 ->
  reachable SemaphoreLock.acquire SemaphoreLock.release l0 s ->
  ((0 < SemaphoreLock.permits (lock s))%Z -> SemaphoreLock.queue (lock s) = []) /\
  (SemaphoreLock.queue (lock s) <> [] -> SemaphoreLock.permits (lock s) = 0%Z).
Proof.
  intros Hn Hs. destruct (sem_reachable_new _ Hn Hs) as [_ [_ _ H _ _]].
  split; [|assumption]. intros Hp.
  destruct (SemaphoreLock.queue (lock s)) as [|x q]; [reflexivity|].
  assert (SemaphoreLock.permits (lock s) = 0%Z) by (apply H; discriminate). lia.
Qed.

Lemma sem_waiters_no_permits_witness :
  sem_run sem_demo_waiting (start (SemaphoreLock.init 3)) =
    Some sem_demo_waiting_state /\
  SemaphoreLock.queue (lock sem_demo_waiting_state) = [5] /\
  SemaphoreLock.permits (lock sem_demo_waiting_state) = 0%Z.
Proof.
  split; [vm_compute; reflexivity|]. split; [reflexivity|].
  apply (sem_waiters_no_permits 3 (l0 := SemaphoreLock.init 3)).
  - vm_compute. reflexivity.
  - apply run_reachable with (ops := sem_demo_waiting). vm_compute. reflexivity.
  - discriminate.
Defined.

(** C7. The constructor of SemaphoreLock throws its error, the one the
    specification calls InvalidConfiguration, exactly when its argument is
    not a positive integer, and builds a semaphore otherwise: it throws for 0,
    -1 and 2.5 and builds one with three permits for 3. *)
Theorem constructor_validation :
  (forall x, SemaphoreLock.new x = inl SemaphoreLock.InvalidConfiguration <->
             ~ positive_integer x) /\
  (forall x, positive_integer x <-> exists l, SemaphoreLock.new x = inr l) /\
  SemaphoreLock.new (JS.of_Z 0) = inl SemaphoreLock.InvalidConfiguration /\
  SemaphoreLock.new (JS.of_Z (-1)) = inl SemaphoreLock.InvalidConfiguration /\
  SemaphoreLock.new (JS.Finite (5 # 2)) = inl SemaphoreLock.InvalidConfiguration /\
  SemaphoreLock.new (JS.of_Z 3) = inr (SemaphoreLock.mk 3 []).
Proof.
  assert (Hpos : forall x, positive_integer x <-> exists l, SemaphoreLock.new x = inr l).
  { intros x. split.
    - intros H. apply sem_new_positive in H.
      destruct H as (q & z & _ & _ & _ & H). eexists. exact H.
    - intros [l H]. eapply sem_new_inr. exact H. }
  split; [|split; [exact Hpos | repeat split]].
  intros x. rewrite Hpos. split.
  - intros H [l Hl]. congruence.
  - intros H. unfold SemaphoreLock.new in *.
    destruct (negb (JS.Number_isInteger x) || JS.lt x (JS.of_Z 1)); [reflexivity|].
    destruct x; try reflexivity. exfalso. apply H. eexists. reflexivity.
Qed.

(** C8. [release] of SimpleLock clears [locked] whatever the state and the
    thread number, which only shows in the line it logs; on a lock that is not
    held it leaves the lock as it is, and it has no way to fail. *)
Theorem release_unconditional (threadId : nat) (s : SimpleLock.t) :
  SimpleLock.locked (fst (SimpleLock.release threadId s)) = false /\
  SimpleLock.maxWaitTime (fst (SimpleLock.release threadId s)) =
    SimpleLock.maxWaitTime s /\
  (forall other : nat,
     fst (SimpleLock.release other s) = fst (SimpleLock.release threadId s)) /\
  (SimpleLock.locked s = false -> fst (SimpleLock.release threadId s) = s) /\
  snd (SimpleLock.release threadId s) =
    [("Thread " ++ SimpleLock.show threadId ++ " - Released lock")%string].
Proof.
  destruct s as [b w]. simpl. repeat split; auto. intros ->. reflexivity.
Qed.

(** C4. Reader/writer exclusivity of ReadWriteLock.  In every state that
    callers reach by acquiring and by invoking each release function at most
    once, active readers exclude an active writer and an active writer
    excludes active readers, and the state after any further operation
    ([acquireRead], [acquireWrite], the release of a read or of a write) has
    the property again. *)
Theorem rw_exclusive (s : ReadWriteLock.Sys) :
  ReadWriteLock.reachable ReadWriteLock.init s ->
  exclusive (ReadWriteLock.lock s) /\
  (forall op s', ReadWriteLock.exec op s = Some s' ->
                 exclusive (ReadWriteLock.lock s')).
Proof.
  assert (H : forall s, rw_inv s -> exclusive (ReadWriteLock.lock s)).
  { intros s0 [H1 _ H3 _ _]. split; [|assumption]. intros Hr.
    destruct (ReadWriteLock.writer (ReadWriteLock.lock s0)); [|reflexivity].
    specialize (H3 eq_refl). lia. }
  intros Hs. apply rw_inv_reachable in Hs. split; [apply H; assumption|].
  intros op s' E. apply H. eapply rw_inv_step; eassumption.
Qed.

Lemma rw_exclusive_witness :
  ReadWriteLock.run rw_demo (ReadWriteLock.start ReadWriteLock.init) =
    Some rw_demo_state /\
  exclusive (ReadWriteLock.lock rw_demo_state).
Proof.
  split; [vm_compute; reflexivity|].
  apply rw_exclusive.
  apply rw_run_reachable
    with (ops := rw_demo) (s := ReadWriteLock.start ReadWriteLock.init);
    [constructor | vm_compute; reflexivity].
Defined.

(** ** ReadWriteLock: the operations one by one *)

Lemma tryAcquireWrite_no_read (c : Caller) (s : ReadWriteLock.t) :
  read_grants_clear (ReadWriteLock.tryAcquireWrite c s) /\
  ReadWriteLock.readQueue (fst (ReadWriteLock.tryAcquireWrite c s)) =
    ReadWriteLock.readQueue s.
Proof.
  unfold read_grants_clear, ReadWriteLock.tryAcquireWrite.
  destruct (negb (ReadWriteLock.writer s) && (ReadWriteLock.readers s =? 0)%Z);
    simpl; split; try reflexivity; intros c' H; try tauto.
  destruct H as [H|[]]. discriminate.
Qed.

Lemma readers_kept_same (s : ReadWriteLock.t)
    (r : ReadWriteLock.t * list ReadWriteLock.Grant) :
  ReadWriteLock.readQueue (fst r) = ReadWriteLock.readQueue s -> readers_kept s r.
Proof.
  intros E c H. left. rewrite E. assumption.
Qed.

Lemma releaseWrite_head (fuel : nat) (s : ReadWriteLock.t) (w : Caller) (ws : list Caller) :
  ReadWriteLock.writeQueue s = w :: ws ->
  ReadWriteLock.releaseWrite fuel s =
  Some (ReadWriteLock.tryAcquireWrite w
          (ReadWriteLock.mk (ReadWriteLock.readers s) false
             (ReadWriteLock.readQueue s) ws)).
Proof.
  destruct s as [r b rq wq]. simpl. intros ->. reflexivity.
Qed.

Lemma releaseWrite_batch (fuel : nat) (s : ReadWriteLock.t) :
  ReadWriteLock.writeQueue s = [] ->
  ReadWriteLock.releaseWrite fuel s =
  if (length (ReadWriteLock.readQueue s) <=? fuel)%nat then
    Some (ReadWriteLock.mk
            (ReadWriteLock.readers s + Z.of_nat (length (ReadWriteLock.readQueue s)))
            false [] [],
          map (pair ReadWriteLock.Read) (ReadWriteLock.readQueue s))
  else None.
Proof.
  destruct s as [r b rq wq]. simpl. intros ->.
  unfold ReadWriteLock.releaseWrite. simpl. apply wakeReaders_batch.
Qed.

(** C5. [acquireRead] grants at once, adding one to [readers] and resolving
    the promise of the caller, if and only if no writer is active and the
    write queue is empty; in every other case it appends the caller to the
    read queue and changes nothing else.  A queued reader stays queued until
    an operation grants it, and whichever operation grants a read leaves no
    writer active and none queued. *)
Theorem acquireRead_writer_preference (c : Caller) (s : ReadWriteLock.t) :
  (In (ReadWriteLock.Read, c) (snd (ReadWriteLock.acquireRead c s)) <->
   ReadWriteLock.writer s = false /\ ReadWriteLock.writeQueue s = []) /\
  (ReadWriteLock.writer s = false /\ ReadWriteLock.writeQueue s = [] ->
   ReadWriteLock.acquireRead c s =
   (ReadWriteLock.mk (ReadWriteLock.readers s + 1) (ReadWriteLock.writer s)
      (ReadWriteLock.readQueue s) (ReadWriteLock.writeQueue s),
    [(ReadWriteLock.Read, c)])) /\
  (~ (ReadWriteLock.writer s = false /\ ReadWriteLock.writeQueue s = []) ->
   ReadWriteLock.acquireRead c s =
   (ReadWriteLock.mk (ReadWriteLock.readers s) (ReadWriteLock.writer s)
      (ReadWriteLock.readQueue s ++ [c]) (ReadWriteLock.writeQueue s),
    [])) /\
  (forall c',
     read_grants_clear (ReadWriteLock.acquireRead c' s) /\
     readers_kept s (ReadWriteLock.acquireRead c' s) /\
     read_grants_clear (ReadWriteLock.acquireWrite c' s) /\
     readers_kept s (ReadWriteLock.acquireWrite c' s)) /\
  (read_grants_clear (ReadWriteLock.releaseRead s) /\
   readers_kept s (ReadWriteLock.releaseRead s)) /\
  (forall fuel r, ReadWriteLock.releaseWrite fuel s = Some r ->
     read_grants_clear r /\ readers_kept s r).
Proof.
  assert (Hacq : forall c',
    (ReadWriteLock.writer s = false /\ ReadWriteLock.writeQueue s = [] ->
     ReadWriteLock.acquireRead c' s =
     (ReadWriteLock.mk (ReadWriteLock.readers s + 1) (ReadWriteLock.writer s)
        (ReadWriteLock.readQueue s) (ReadWriteLock.writeQueue s),
      [(ReadWriteLock.Read, c')])) /\
    (~ (ReadWriteLock.writer s = false /\ ReadWriteLock.writeQueue s = []) ->
     ReadWriteLock.acquireRead c' s =
     (ReadWriteLock.mk (ReadWriteLock.readers s) (ReadWriteLock.writer s)
        (ReadWriteLock.readQueue s ++ [c']) (ReadWriteLock.writeQueue s),
      []))).
  { intros c'. unfold ReadWriteLock.acquireRead, ReadWriteLock.tryAcquireRead, push.
    destruct s as [r b rq wq]. simpl.
    destruct b, wq; simpl; split; try reflexivity;
      try (intros [? ?]; discriminate); intros H; exfalso; apply H; auto. }
  assert (Hdec : (ReadWriteLock.writer s = false /\ ReadWriteLock.writeQueue s = []) \/
                 ~ (ReadWriteLock.writer s = false /\ ReadWriteLock.writeQueue s = [])).
  { destruct (ReadWriteLock.writer s), (ReadWriteLock.writeQueue s);
      [right | right | left | right]; try tauto;
      intros [? ?]; discriminate. }
  split; [|split; [apply Hacq | split; [apply Hacq|]]].
  - destruct Hdec as [Hy|Hn].
    + rewrite (proj1 (Hacq c) Hy). simpl. tauto.
    + rewrite (proj2 (Hacq c) Hn). simpl. tauto.
  - split; [|split].
    + intros c'. split; [|split; [|split]].
      * destruct Hdec as [Hy|Hn].
        -- rewrite (proj1 (Hacq c') Hy). intros x _. exact Hy.
        -- rewrite (proj2 (Hacq c') Hn). intros x Hx. destruct Hx.
      * destruct Hdec as [Hy|Hn].
        -- rewrite (proj1 (Hacq c') Hy). apply readers_kept_same. reflexivity.
        -- rewrite (proj2 (Hacq c') Hn). intros x Hx. left. simpl.
           apply in_or_app. left. assumption.
      * apply tryAcquireWrite_no_read.
      * apply readers_kept_same. apply tryAcquireWrite_no_read.
    + unfold ReadWriteLock.releaseRead. simpl.
      destruct ((ReadWriteLock.readers s - 1 =? 0)%Z
                && (0 <? length (ReadWriteLock.writeQueue s))%nat).
      * destruct (ReadWriteLock.writeQueue s) as [|w ws]; simpl.
        -- split; [intros x Hx; destruct Hx | apply readers_kept_same; reflexivity].
        -- split; [apply tryAcquireWrite_no_read|].
           apply readers_kept_same.
           rewrite (proj2 (tryAcquireWrite_no_read _ _)). reflexivity.
      * split; [intros x Hx; destruct Hx | apply readers_kept_same; reflexivity].
    + intros fuel r Hr.
      destruct (ReadWriteLock.writeQueue s) as [|w ws] eqn:Hq.
      * rewrite (releaseWrite_batch fuel s Hq) in Hr.
        destruct (length (ReadWriteLock.readQueue s) <=? fuel)%nat; [|discriminate].
        injection Hr as <-. split.
        -- intros x _. simpl. auto.
        -- intros x Hx. right. simpl.
           apply (in_map (pair ReadWriteLock.Read)) in Hx. exact Hx.
      * rewrite (releaseWrite_head fuel s Hq) in Hr. injection Hr as <-.
        split; [apply tryAcquireWrite_no_read|].
        apply readers_kept_same.
        rewrite (proj2 (tryAcquireWrite_no_read _ _)). reflexivity.
Qed.

(** C6. [releaseWrite] first clears [writer].  Then, if a writer is queued,
    it takes the head of the write queue off, calls its closure and leaves
    both queues otherwise alone; with no reader active, as it is when the
    release function of a writer is invoked, that writer is granted.  If no
    writer is queued, it takes every closure off the read queue and calls it,
    all in that one run, the loop ending after one iteration per queued
    reader. *)
Theorem releaseWrite_wakes (s : ReadWriteLock.t) (fuel : nat) :
  (forall w ws, ReadWriteLock.writeQueue s = w :: ws ->
     ReadWriteLock.releaseWrite fuel s =
     Some (ReadWriteLock.tryAcquireWrite w
             (ReadWriteLock.mk (ReadWriteLock.readers s) false
                (ReadWriteLock.readQueue s) ws)) /\
     (ReadWriteLock.readers s = 0%Z ->
      ReadWriteLock.releaseWrite fuel s =
      Some (ReadWriteLock.mk 0 true (ReadWriteLock.readQueue s) ws,
            [(ReadWriteLock.Write, w)]))) /\
  (ReadWriteLock.writeQueue s = [] ->
     (length (ReadWriteLock.readQueue s) <= fuel ->
      ReadWriteLock.releaseWrite fuel s =
      Some (ReadWriteLock.mk
              (ReadWriteLock.readers s
               + Z.of_nat (length (ReadWriteLock.readQueue s)))
              false [] [],
            map (pair ReadWriteLock.Read) (ReadWriteLock.readQueue s))) /\
     (fuel < length (ReadWriteLock.readQueue s) ->
      ReadWriteLock.releaseWrite fuel s = None)).
Proof.
  split.
  - intros w ws Hq. rewrite (releaseWrite_head fuel s Hq). split; [reflexivity|].
    intros Hr. unfold ReadWriteLock.tryAcquireWrite. simpl. rewrite Hr. reflexivity.
  - intros Hq. rewrite (releaseWrite_batch fuel s Hq). split; intros H.
    + apply Nat.leb_le in H. rewrite H. reflexivity.
    + apply Nat.leb_gt in H. rewrite H. reflexivity.
Qed.

Lemma releaseWrite_wakes_witness :
  ReadWriteLock.releaseWrite 0 rw_handoff =
    Some (ReadWriteLock.mk 0 true [7] [5], [(ReadWriteLock.Write, 4)]) /\
  ReadWriteLock.releaseWrite 3 rw_batch =
    Some (ReadWriteLock.mk 3 false [] [],
          [(ReadWriteLock.Read, 7); (ReadWriteLock.Read, 8); (ReadWriteLock.Read, 9)]).
Proof.
  split.
  - apply (proj1 (releaseWrite_wakes rw_handoff 0) 4 [5]); reflexivity.
  - apply (proj2 (releaseWrite_wakes rw_batch 3)); [reflexivity | simpl; lia].
Defined.

(** C10. The batch wake of [releaseWrite].  With no writer queued, the run
    ends, and afterwards the read queue is empty, [writer] is false, [readers]
    is larger by the number of readers that were queued, and the promises it
    resolved are those of the queued readers, each once and in the order of
    the queue: no woken reader went back to the queue.  Every run that ends
    ends this way. *)
Theorem releaseWrite_batch_wake (s : ReadWriteLock.t) :
  ReadWriteLock.writeQueue s = [] ->
  exists fuel s' out,
    ReadWriteLock.releaseWrite fuel s = Some (s', out) /\
    ReadWriteLock.readQueue s' = [] /\
    ReadWriteLock.writeQueue s' = [] /\
    ReadWriteLock.writer s' = false /\
    ReadWriteLock.readers s' =
      (ReadWriteLock.readers s + Z.of_nat (length (ReadWriteLock.readQueue s)))%Z /\
    out = map (pair ReadWriteLock.Read) (ReadWriteLock.readQueue s) /\
    (forall fuel' r, ReadWriteLock.releaseWrite fuel' s = Some r -> r = (s', out)).
Proof.
  intros Hq. exists (length (ReadWriteLock.readQueue s)).
  eexists. eexists. split.
  - rewrite (releaseWrite_batch _ s Hq), Nat.leb_refl. reflexivity.
  - simpl. repeat split. intros fuel' r Hr.
    rewrite (releaseWrite_batch _ s Hq) in Hr.
    destruct (length (ReadWriteLock.readQueue s) <=? fuel')%nat; [|discriminate].
    injection Hr as <-. reflexivity.
Qed.

Lemma releaseWrite_batch_wake_witness :
  exists fuel s',
    ReadWriteLock.releaseWrite fuel rw_batch =
      Some (s', [(ReadWriteLock.Read, 7); (ReadWriteLock.Read, 8);
                 (ReadWriteLock.Read, 9)]) /\
    ReadWriteLock.readQueue s' = [] /\
    ReadWriteLock.writer s' = false /\
    ReadWriteLock.readers s' = 3%Z.
Proof.
  destruct (releaseWrite_batch_wake rw_batch eq_refl)
    as (fuel & s' & out & H1 & H2 & _ & H3 & H4 & H5 & _).
  exists fuel, s'. rewrite H5 in H1. repeat split; assumption.
Defined.

(** ** Remarks *)

(** The harnesses let a release function be invoked once.  The locks do not
    check this: invoked a second time, the release function of QueueLock
    clears [locked] under the caller it handed the lock to, and the next call
    of [acquire()] is granted next to that caller. *)
Example ql_release_twice :
  let l1 := fst (QueueLock.acquire 1 QueueLock.init) in
  let l2 := fst (QueueLock.acquire 2 l1) in
  let l3 := QueueLock.release l2 in
  let l4 := QueueLock.release (fst l3) in
  snd l3 = [2] /\ snd l4 = [] /\ snd (QueueLock.acquire 3 (fst l4)) = [3].
Proof.
  cbv. auto.
Qed.

(** The release of a write in the harness, with no writer queued: the release
    functions handed out afterwards are those of the readers that were
    queued. *)
Lemma rw_release_write_batch (s : ReadWriteLock.Sys) (c : Caller) :
  ReadWriteLock.reachable ReadWriteLock.init s ->
  In c (ReadWriteLock.writeHeld s) ->
  ReadWriteLock.writeQueue (ReadWriteLock.lock s) = [] ->
  ReadWriteLock.exec
    (ReadWriteLock.ReleaseWrite c
       (length (ReadWriteLock.readQueue (ReadWriteLock.lock s)))) s =
  Some (ReadWriteLock.mkSys
          (ReadWriteLock.mk
             (Z.of_nat (length (ReadWriteLock.readQueue (ReadWriteLock.lock s))))
             false [] [])
          (ReadWriteLock.calls s)
          (ReadWriteLock.readQueue (ReadWriteLock.lock s))
          []).
Proof.
  intros Hs Hc Hq. apply rw_inv_reachable in Hs. destruct Hs as [H1 H2 H3 _ _].
  pose proof (remove1_length c _ Hc) as Hl.
  destruct s as [l cs rh wh]. simpl in *.
  apply mem_In in Hc. rewrite Hc, (releaseWrite_batch _ l Hq), Nat.leb_refl.
  destruct (ReadWriteLock.writer l); [|rewrite H2 in Hl; discriminate].
  specialize (H3 eq_refl).
  assert (Hwh : remove1 c wh = []).
  { destruct (remove1 c wh); [reflexivity|]. simpl in Hl. lia. }
  assert (Hrh : rh = []).
  { destruct rh; [reflexivity|]. simpl in H1. lia. }
  unfold ReadWriteLock.settle. simpl.
  rewrite Hwh, Hrh, H3, grants_read_readers, grants_write_readers. reflexivity.
Qed.

(** Nobody waits without cause: while a reader is queued a writer is active or
    queued, and while a writer is queued a writer or a reader is active. *)
Lemma rw_waiters_have_cause (s : ReadWriteLock.Sys) :
  ReadWriteLock.reachable ReadWriteLock.init s ->
  (ReadWriteLock.readQueue (ReadWriteLock.lock s) <> [] ->
   ReadWriteLock.writer (ReadWriteLock.lock s) = true \/
   ReadWriteLock.writeQueue (ReadWriteLock.lock s) <> []) /\
  (ReadWriteLock.writeQueue (ReadWriteLock.lock s) <> [] ->
   ReadWriteLock.writer (ReadWriteLock.lock s) = true \/
   (0 < ReadWriteLock.readers (ReadWriteLock.lock s))%Z).
Proof.
  intros Hs. apply rw_inv_reachable in Hs. destruct Hs as [_ _ _ H4 H5].
  split; assumption.
Qed.

(** * Further properties *)

(** ** Runs of the harness *)

Section RunFacts.

Variable L : Type.
Variable acquire : Caller -> L -> L * list Caller.
Variable release : L -> L * list Caller.

Lemma run_app (ops1 ops2 : list Op) :
  forall s : Sys L,
    run acquire release (ops1 ++ ops2) s =
    match run acquire release ops1 s with
    | Some s1 => run acquire release ops2 s1
    | None => None
    end.
Proof.
  induction ops1 as [|op ops1 IH]; intros s; simpl; [reflexivity|].
  destruct (exec acquire release op s); [apply IH | reflexivity].
Qed.

(** An invariant of the steps, and a count each step keeps, carry over to
    runs. *)
Variable queue_of : L -> list Caller.
Variable Inv : Sys L -> Prop.

Hypothesis Inv_step : forall s s' op,
  Inv s -> exec acquire release op s = Some s' -> Inv s'.

Hypothesis count_step : forall s s' op,
  Inv s -> exec acquire release op s = Some s' ->
  length (held s') + length (queue_of (lock s')) + (if is_release op then 1 else 0) =
  length (held s) + length (queue_of (lock s)) + (if is_release op then 0 else 1).

Lemma run_inv (ops : list Op) :
  forall s s', Inv s -> run acquire release ops s = Some s' -> Inv s'.
Proof.
  induction ops as [|op ops IH]; simpl; intros s s' Hs Hr.
  - injection Hr as <-. assumption.
  - destruct (exec acquire release op s) as [s1|] eqn:E; [|discriminate].
    eapply IH; [|eassumption]. eapply Inv_step; eassumption.
Qed.

Lemma run_conserves (ops : list Op) :
  forall s s', Inv s -> run acquire release ops s = Some s' ->
    length (held s') + length (queue_of (lock s')) + releases ops =
    length (held s) + length (queue_of (lock s)) + acquires ops.
Proof.
  unfold releases, acquires.
  induction ops as [|op ops IH]; simpl; intros s s' Hs Hr.
  - injection Hr as <-. lia.
  - destruct (exec acquire release op s) as [s1|] eqn:E; [|discriminate].
    pose proof (@count_step s s1 op Hs E) as Hc.
    pose proof (IH _ _ (@Inv_step s s1 op Hs E) Hr) as Hi.
    destruct (is_release op); simpl; lia.
Qed.

End RunFacts.

(** ** QueueLock: hand-off, balance and the demo *)

Lemma mem_self (c : Caller) (l : list Caller) : mem c (c :: l) = true.
Proof.
  apply mem_In. left. reflexivity.
Qed.

Lemma remove1_self (c : Caller) (l : list Caller) : remove1 c (c :: l) = l.
Proof.
  simpl. rewrite Nat.eqb_refl. reflexivity.
Qed.

Lemma singleton_of_length (A : Type) (l : list A) :
  length l = 1 -> exists x, l = [x].
Proof.
  destruct l as [|x [|y l]]; try discriminate. intros _. exists x. reflexivity.
Qed.

(** X1. Nobody is left waiting on a QueueLock: while a caller is queued, one
    caller holds a release function, and its invocation hands the lock to the
    head of the queue in the same run; the lock is not free in between. *)
Theorem ql_handoff_progress (s : Sys QueueLock.t) (x : Caller) (q : list Caller) :
  ql_reachable s -> QueueLock.queue (lock s) = x :: q ->
  exists c, held s = [c] /\
    ql_exec (Release c) s =
    Some (mkSys (QueueLock.mk true q) (calls s) (granted s ++ [x]) [x]).
Proof.
  intros Hs Hq. apply ql_inv_reachable in Hs. destruct Hs as [H1 H2 _ _].
  rewrite H1 in H2 by (rewrite Hq; discriminate).
  destruct (singleton_of_length _ H2) as [c Hc]. exists c. split; [assumption|].
  destruct s as [[b qq] cs gr hd]. simpl in *. subst qq hd.
  unfold ql_exec, exec. simpl lock. simpl held.
  rewrite mem_self, remove1_self. reflexivity.
Qed.

Lemma ql_handoff_progress_witness :
  exists c, held (mkSys (QueueLock.mk true [2; 3]) [1; 2; 3] [1] [1]) = [c] /\
    ql_exec (Release c) (mkSys (QueueLock.mk true [2; 3]) [1; 2; 3] [1] [1]) =
    Some (mkSys (QueueLock.mk true [3]) [1; 2; 3] [1; 2] [2]).
Proof.
  apply (ql_handoff_progress (s := mkSys (QueueLock.mk true [2; 3]) [1; 2; 3] [1] [1])).
  - apply run_reachable with (ops := [Acquire 1; Acquire 2; Acquire 3]).
    vm_compute. reflexivity.
  - reflexivity.
Defined.

Lemma ql_count_step (s s' : Sys QueueLock.t) (op : Op) :
  ql_inv s -> ql_exec op s = Some s' ->
  length (held s') + length (QueueLock.queue (lock s')) + (if is_release op then 1 else 0) =
  length (held s) + length (QueueLock.queue (lock s)) + (if is_release op then 0 else 1).
Proof.
  destruct s as [[b q] cs gr hd]. intros _. unfold ql_exec, exec.
  destruct op as [c|c]; simpl.
  - destruct (mem c cs); [discriminate|].
    unfold QueueLock.acquire, QueueLock.tryAcquire, push.
    destruct b; simpl; intros [= <-]; simpl; rewrite ?length_app; simpl; lia.
  - destruct (mem c hd) eqn:M; [|discriminate]. apply mem_In in M.
    pose proof (remove1_length c hd M) as Hl.
    unfold QueueLock.release, QueueLock.tryAcquire.
    destruct q as [|x q]; simpl; intros [= <-]; simpl;
      rewrite ?length_app; simpl; lia.
Qed.

(** X2. The balance of a QueueLock.  In every run the callers holding a
    release function, the callers queued and the release functions invoked
    add up to the calls of [acquire()].  So when as many release functions
    were invoked as [acquire()] was called, the lock is back in its first
    state and every call was granted. *)
Theorem ql_balanced (ops : list Op) (s : Sys QueueLock.t) :
  ql_run ops (start QueueLock.init) = Some s ->
  length (held s) + length (QueueLock.queue (lock s)) + releases ops = acquires ops /\
  (releases ops = acquires ops ->
   lock s = QueueLock.init /\ held s = [] /\ granted s = calls s).
Proof.
  intros Hr.
  pose proof (@run_conserves _ QueueLock.acquire QueueLock.release
                QueueLock.queue ql_inv ql_inv_step ql_count_step
                ops _ _ ql_inv_start Hr) as Hc.
  pose proof (@run_inv _ QueueLock.acquire QueueLock.release ql_inv ql_inv_step
                ops _ _ ql_inv_start Hr) as [H1 H2 H3 _].
  simpl in Hc. split; [lia|]. intros Hb.
  destruct s as [[b q] cs gr hd]. simpl in *.
  assert (Hq : q = []) by (destruct q; [reflexivity | simpl in Hc; lia]).
  assert (Hh : hd = []) by (destruct hd; [reflexivity | simpl in Hc; lia]).
  subst q hd. destruct b; [discriminate|].
  rewrite app_nil_r in H3. auto.
Qed.

Lemma ql_balanced_witness :
  length (held ql_demo_state) + length (QueueLock.queue (lock ql_demo_state))
  + releases ql_demo = acquires ql_demo.
Proof.
  apply (ql_balanced ql_demo). vm_compute. reflexivity.
Defined.

Lemma NoDup_app_fresh (c : Caller) (l1 l2 : list Caller) :
  NoDup (l1 ++ c :: l2) -> mem c l1 = false /\ NoDup ((l1 ++ [c]) ++ l2).
Proof.
  intros H. split.
  - apply mem_false. intros Hc. apply NoDup_remove_2 in H. apply H.
    apply in_or_app. left. assumption.
  - rewrite <- app_assoc. exact H.
Qed.

(** Calls of [acquire()] on a QueueLock that is held all join the queue. *)
Lemma ql_acquire_all (cs : list Caller) :
  forall (q cl gr hd : list Caller), NoDup (cl ++ cs) ->
    ql_run (map Acquire cs) (mkSys (QueueLock.mk true q) cl gr hd) =
    Some (mkSys (QueueLock.mk true (q ++ cs)) (cl ++ cs) gr hd).
Proof.
  induction cs as [|c cs IH]; intros q cl gr hd Hnd; simpl.
  - rewrite !app_nil_r. reflexivity.
  - destruct (NoDup_app_fresh _ _ _ Hnd) as [Hc Hnd'].
    unfold QueueLock.acquire, QueueLock.tryAcquire, push. simpl. rewrite Hc.
    rewrite !app_nil_r. unfold ql_run in IH. rewrite IH by assumption.
    rewrite <- !app_assoc. reflexivity.
Qed.

Lemma ql_exec_release (c : Caller) (q cl gr : list Caller) :
  exec QueueLock.acquire QueueLock.release (Release c)
    (mkSys (QueueLock.mk true q) cl gr [c]) =
  Some match q with
       | [] => mkSys QueueLock.init cl gr []
       | x :: q' => mkSys (QueueLock.mk true q') cl (gr ++ [x]) [x]
       end.
Proof.
  unfold exec. simpl lock. simpl held. rewrite mem_self, remove1_self.
  destruct q; simpl; rewrite ?app_nil_r; reflexivity.
Qed.

(** The holder and then each caller of the queue in turn release. *)
Lemma ql_release_all (q : list Caller) :
  forall (c : Caller) (cl gr : list Caller),
    ql_run (map Release (c :: q)) (mkSys (QueueLock.mk true q) cl gr [c]) =
    Some (mkSys QueueLock.init cl (gr ++ q) []).
Proof.
  unfold ql_run.
  induction q as [|x q IH]; intros c cl gr;
    change (map Release (c :: ?l)) with (Release c :: map Release l);
    cbv beta iota delta [run]; fold (run QueueLock.acquire QueueLock.release);
    rewrite ql_exec_release.
  - simpl. rewrite app_nil_r. reflexivity.
  - rewrite IH, <- app_assoc. reflexivity.
Qed.

(** X3. The demo of QueueLock with any number of threads: the threads call
    [acquire()] in the order of the array and each releases once it has had
    the lock.  Every release finds its thread holding the lock, the threads
    are granted in the order of the array, and at the end the lock is free
    with nobody queued. *)
Theorem ql_demo_run (threads : list Caller) :
  NoDup threads ->
  ql_run (ql_demo_trace threads) (start QueueLock.init) =
  Some (mkSys QueueLock.init threads threads []).
Proof.
  intros Hnd. unfold ql_demo_trace, ql_run. rewrite run_app.
  destruct threads as [|c cs]; [reflexivity|].
  change (map Acquire (c :: cs)) with (Acquire c :: map Acquire cs).
  cbv beta iota delta [run]; fold (run QueueLock.acquire QueueLock.release).
  assert (E : exec QueueLock.acquire QueueLock.release (Acquire c)
                (start QueueLock.init) =
              Some (mkSys (QueueLock.mk true []) [c] [c] [c])) by reflexivity.
  rewrite E.
  pose proof (ql_acquire_all cs [] [c] [c] [c] Hnd) as Ha.
  unfold ql_run in Ha. simpl app in Ha. rewrite Ha.
  apply (ql_release_all cs c (c :: cs) [c]).
Qed.

Lemma ql_demo_run_witness :
  ql_run (ql_demo_trace [1; 2; 3; 4; 5]) (start QueueLock.init) =
  Some (mkSys QueueLock.init [1; 2; 3; 4; 5] [1; 2; 3; 4; 5] []).
Proof.
  apply ql_demo_run. repeat constructor; simpl; intuition discriminate.
Defined.

(** ** SemaphoreLock: the first callers, hand-off and balance *)

Lemma sem_exec_acquire (c : Caller) (p : Z) (q cl gr hd : list Caller) :
  mem c cl = false ->
  exec SemaphoreLock.acquire SemaphoreLock.release (Acquire c)
    (mkSys (SemaphoreLock.mk p q) cl gr hd) =
  Some (if (0 <? p)%Z
        then mkSys (SemaphoreLock.mk (p - 1) q) (cl ++ [c]) (gr ++ [c]) (hd ++ [c])
        else mkSys (SemaphoreLock.mk p (q ++ [c])) (cl ++ [c]) gr hd).
Proof.
  intros Hc. unfold exec. simpl calls. rewrite Hc.
  unfold SemaphoreLock.acquire, SemaphoreLock.tryAcquire, push. simpl.
  destruct (0 <? p)%Z; simpl; rewrite ?app_nil_r; reflexivity.
Qed.

Lemma sem_acquire_all (k : nat) (cs : list Caller) :
  NoDup cs ->
  sem_run (map Acquire cs) (start (SemaphoreLock.init (Z.of_nat k))) =
  Some (mkSys (SemaphoreLock.mk (Z.of_nat (k - length cs)) (skipn k cs))
          cs (firstn k cs) (firstn k cs)).
Proof.
  unfold sem_run. induction cs as [|c cs IH] using rev_ind; intros Hnd.
  - simpl. rewrite Nat.sub_0_r, skipn_nil, firstn_nil. reflexivity.
  - rewrite map_app, run_app.
    assert (Hcs : NoDup cs /\ mem c cs = false).
    { split.
      - apply NoDup_app_remove_r in Hnd. assumption.
      - apply mem_false. apply NoDup_remove_2 in Hnd. rewrite app_nil_r in Hnd.
        assumption. }
    destruct Hcs as [Hcs Hc]. rewrite (IH Hcs).
    cbv beta iota delta [run map]. rewrite (sem_exec_acquire _ _ _ _ _ _ Hc).
    rewrite length_app. simpl length.
    destruct (Z.ltb_spec 0 (Z.of_nat (k - length cs))) as [Hlt|Hge].
    + assert (Hk : length cs < k) by lia.
      rewrite !firstn_all2, !skipn_all2 by (rewrite ?length_app; simpl; lia).
      do 3 f_equal. lia.
    + assert (Hk : k <= length cs) by lia.
      rewrite firstn_app, skipn_app.
      replace (k - length cs) with 0 by lia.
      replace (k - (length cs + 1)) with 0 by lia.
      simpl. rewrite app_nil_r. reflexivity.
Qed.

(** X4. The first callers of a SemaphoreLock.  When callers call [acquire()]
    one after the other on a new semaphore with [k <= 2^53] permits and nobody
    releases, the first [k] of them are granted at once, in order, and the
    others are queued in order; the permits left are [k] less the number of
    callers, or none. *)
Theorem sem_acquire_burst (k : nat) (cs : list Caller) :
  (Z.of_nat k <= JS.MAX_EXACT)%Z ->
  NoDup cs ->
  semd_run (map Acquire cs) (start (SemaphoreLock.init (Z.of_nat k))) =
  Some (mkSys (SemaphoreLock.mk (Z.of_nat (k - length cs)) (skipn k cs))
          cs (firstn k cs) (firstn k cs)).
Proof.
  intros Hk Hnd.
  rewrite (semd_run_exact (k := Z.of_nat k)); [apply sem_acquire_all; exact Hnd
                                              | exact Hk |].
  apply sem_inv_start. lia.
Qed.

Lemma sem_acquire_burst_witness :
  semd_run (map Acquire [1; 2; 3; 4; 5]) (start (SemaphoreLock.init 3)) =
  Some (mkSys (SemaphoreLock.mk 0 [4; 5]) [1; 2; 3; 4; 5] [1; 2; 3] [1; 2; 3]).
Proof.
  apply (sem_acquire_burst 3 (cs := [1; 2; 3; 4; 5])).
  - vm_compute. discriminate.
  - repeat constructor; simpl; intuition discriminate.
Defined.

(** X6. Nobody is left waiting on a SemaphoreLock: while a caller is queued,
    all [k] release functions are out, and the invocation of any of them
    grants the head of the queue in the same run, with no permit left over. *)
Theorem sem_handoff_progress (k : Z) (l0 : SemaphoreLock.t)
    (s : Sys SemaphoreLock.t) (x : Caller) (q : list Caller) :
  SemaphoreLock.new (JS.of_Z k) = inr l0 ->
  reachable SemaphoreLock.acquire SemaphoreLock.release l0 s ->
  SemaphoreLock.queue (lock s) = x :: q ->
  Z.of_nat (length (held s)) = k /\ held s <> [] /\
  forall c, In c (held s) ->
    sem_exec (Release c) s =
    Some (mkSys (SemaphoreLock.mk 0 q) (calls s) (granted s ++ [x])
            (remove1 c (held s) ++ [x])).
Proof.
  intros Hn Hs Hq. destruct (sem_reachable_new _ Hn Hs) as [Hk [H0 H1 H2 _ _]].
  rewrite Hq in H2. specialize (H2 ltac:(discriminate)).
  split; [lia|]. split.
  - intros E. rewrite E in H1. simpl in H1. lia.
  - intros c Hc. destruct s as [[p qq] cs gr hd]. simpl in *. subst p qq.
    apply mem_In in Hc. unfold sem_exec, exec. simpl held. rewrite Hc.
    reflexivity.
Qed.

Lemma sem_handoff_progress_witness :
  sem_exec (Release 3) sem_demo_waiting_state =
  Some (mkSys (SemaphoreLock.mk 0 []) [1; 2; 3; 4; 5] [1; 2; 3; 4; 5] [1; 4; 5]).
Proof.
  apply (sem_handoff_progress 3 (l0 := SemaphoreLock.init 3)
           (s := sem_demo_waiting_state) (x := 5) (q := [])).
  - vm_compute. reflexivity.
  - apply run_reachable with (ops := sem_demo_waiting). vm_compute. reflexivity.
  - reflexivity.
  - simpl. tauto.
Defined.

Lemma sem_count_step (k : Z) (s s' : Sys SemaphoreLock.t) (op : Op) :
  sem_inv k s -> sem_exec op s = Some s' ->
  length (held s') + length (SemaphoreLock.queue (lock s')) + (if is_release op then 1 else 0) =
  length (held s) + length (SemaphoreLock.queue (lock s)) + (if is_release op then 0 else 1).
Proof.
  destruct s as [[p q] cs gr hd]. intros [H0 _ _ _ _]. simpl in H0.
  unfold sem_exec, exec. destruct op as [c|c]; simpl.
  - destruct (mem c cs); [discriminate|].
    unfold SemaphoreLock.acquire, SemaphoreLock.tryAcquire, push. simpl.
    destruct (0 <? p)%Z; simpl; intros [= <-]; simpl; rewrite ?length_app;
      simpl; lia.
  - destruct (mem c hd) eqn:M; [|discriminate]. apply mem_In in M.
    pose proof (remove1_length c hd M) as Hl.
    unfold SemaphoreLock.release, SemaphoreLock.tryAcquire. simpl.
    destruct q as [|x q]; simpl.
    + intros [= <-]. simpl. rewrite ?length_app. simpl. lia.
    + destruct (Z.ltb_spec 0 (p + 1)) as [_|Hp]; [|lia].
      intros [= <-]. simpl. rewrite ?length_app. simpl. lia.
Qed.

(** X5. The balance of a SemaphoreLock with [k <= 2^53] permits.  In every
    run the callers holding a release function, the callers queued and the
    release functions invoked add up to the calls of [acquire()].  So when as
    many release functions were invoked as [acquire()] was called, all [k]
    permits are back, nobody is queued and every call was granted. *)
Theorem sem_balanced (k : Z) (ops : list Op) (s : Sys SemaphoreLock.t) :
  (0 <= k <= JS.MAX_EXACT)%Z ->
  semd_run ops (start (SemaphoreLock.init k)) = Some s ->
  length (held s) + length (SemaphoreLock.queue (lock s)) + releases ops =
    acquires ops /\
  (releases ops = acquires ops ->
   lock s = SemaphoreLock.init k /\ held s = [] /\ granted s = calls s).
Proof.
  intros [Hk Hmax] Hr.
  rewrite (semd_run_exact ops Hmax (sem_inv_start Hk)) in Hr.
  pose proof (@run_conserves _ SemaphoreLock.acquire SemaphoreLock.release
                SemaphoreLock.queue (sem_inv k) (@sem_inv_step k)
                (@sem_count_step k) ops _ _ (sem_inv_start Hk) Hr) as Hc.
  pose proof (@run_inv _ SemaphoreLock.acquire SemaphoreLock.release
                (sem_inv k) (@sem_inv_step k) ops _ _ (sem_inv_start Hk) Hr)
    as [_ H1 _ H3 _].
  simpl in Hc. split; [lia|]. intros Hb.
  destruct s as [[p q] cs gr hd]. simpl in *.
  assert (Hq : q = []) by (destruct q; [reflexivity | simpl in Hc; lia]).
  assert (Hh : hd = []) by (destruct hd; [reflexivity | simpl in Hc; lia]).
  subst q hd. simpl in H1. rewrite app_nil_r in H3.
  repeat split; auto. unfold SemaphoreLock.init. f_equal. lia.
Qed.

Lemma sem_balanced_witness :
  length (held sem_demo_state) + length (SemaphoreLock.queue (lock sem_demo_state))
  + releases sem_demo = acquires sem_demo.
Proof.
  apply (sem_balanced (k := 3) sem_demo);
    [vm_compute; split; discriminate | vm_compute; reflexivity].
Defined.

(** ** A SemaphoreLock with one permit is a QueueLock *)

Lemma ql_sem_step (a : Sys QueueLock.t) (b : Sys SemaphoreLock.t) (op : Op) :
  ql_inv a -> ql_sem_match a b ->
  match ql_exec op a, sem_exec op b with
  | Some a', Some b' => ql_sem_match a' b'
  | None, None => True
  | _, _ => False
  end.
Proof.
  destruct a as [[lk qa] ca ga ha], b as [[p qb] cb gb hb].
  intros [_ H2 _ _] (E1 & E2 & E3 & E4 & E5). simpl in *. subst cb gb hb qb.
  unfold ql_exec, sem_exec, exec. destruct op as [c|c]; simpl.
  - destruct (mem c ca); [exact I|].
    unfold QueueLock.acquire, QueueLock.tryAcquire, SemaphoreLock.acquire,
      SemaphoreLock.tryAcquire.
    destruct lk; subst p; simpl; repeat split.
  - destruct (mem c ha) eqn:M; [|exact I]. apply mem_In in M.
    destruct lk; [|destruct ha; [destruct M | discriminate]]. subst p.
    unfold QueueLock.release, QueueLock.tryAcquire, SemaphoreLock.release,
      SemaphoreLock.tryAcquire.
    destruct qa as [|x qa]; simpl; repeat split.
Qed.

Lemma ql_sem_run (ops : list Op) :
  forall (a : Sys QueueLock.t) (b : Sys SemaphoreLock.t),
    ql_inv a -> ql_sem_match a b ->
    match ql_run ops a, sem_run ops b with
    | Some a', Some b' => ql_sem_match a' b'
    | None, None => True
    | _, _ => False
    end.
Proof.
  unfold ql_run, sem_run.
  induction ops as [|op ops IH]; intros a b Ha Hm; simpl; [assumption|].
  pose proof (ql_sem_step op Ha Hm) as Hs. unfold ql_exec, sem_exec in Hs.
  destruct (exec QueueLock.acquire QueueLock.release op a) as [a'|] eqn:Ea;
    destruct (exec SemaphoreLock.acquire SemaphoreLock.release op b) as [b'|];
    try contradiction; [|exact I].
  apply IH; [|assumption]. eapply ql_inv_step; eassumption.
Qed.

(** X7. A SemaphoreLock with one permit and a QueueLock cannot be told apart
    by their callers: on the same calls of [acquire()] and invocations of
    release functions, either both refuse the run (a release function that
    nobody holds), or both accept it with the same callers granted in the
    same order, the same callers holding a release function and the same
    queue, the semaphore having a permit exactly when the lock is free. *)
Theorem sem_one_is_queue_lock (ops : list Op) :
  match ql_run ops (start QueueLock.init),
        sem_run ops (start (SemaphoreLock.init 1)) with
  | Some a, Some b => ql_sem_match a b
  | None, None => True
  | _, _ => False
  end.
Proof.
  apply ql_sem_run; [apply ql_inv_start|]. repeat split.
Qed.

(** ** Outside the discipline: release functions invoked at will *)

Section RawRuns.

Variable L : Type.
Variable acquire : Caller -> L -> L * list Caller.
Variable release : L -> L * list Caller.
Variable queue_of : L -> list Caller.
Variable P : L -> Prop.

Hypothesis raw_step : forall op l,
  P l ->
  queue_of l ++ raw_requests [op] =
    snd (raw_exec acquire release op l) ++ queue_of (fst (raw_exec acquire release op l)) /\
  P (fst (raw_exec acquire release op l)).

Lemma raw_run_order (ops : list RawOp) :
  forall l, P l ->
    queue_of l ++ raw_requests ops =
      snd (raw_run acquire release ops l)
      ++ queue_of (fst (raw_run acquire release ops l)) /\
    P (fst (raw_run acquire release ops l)).
Proof.
  induction ops as [|op ops IH]; intros l Hl; simpl.
  - rewrite app_nil_r. auto.
  - destruct (raw_step op Hl) as [E1 H1].
    destruct (raw_exec acquire release op l) as [l1 out1]. simpl in E1, H1.
    destruct (IH l1 H1) as [E2 H2].
    destruct (raw_run acquire release ops l1) as [l2 out2]. simpl in *.
    split; [|assumption].
    change (raw_requests (op :: ops)) with (raw_requests [op] ++ raw_requests ops).
    rewrite app_nil_r in E1.
    rewrite app_assoc, E1, <- !app_assoc, E2. reflexivity.
Qed.

End RawRuns.

Lemma ql_raw_step (op : RawOp) (l : QueueLock.t) :
  (QueueLock.queue l <> [] -> QueueLock.locked l = true) ->
  QueueLock.queue l ++ raw_requests [op] =
    snd (raw_exec QueueLock.acquire QueueLock.release op l)
    ++ QueueLock.queue (fst (raw_exec QueueLock.acquire QueueLock.release op l)) /\
  (QueueLock.queue (fst (raw_exec QueueLock.acquire QueueLock.release op l)) <> [] ->
   QueueLock.locked (fst (raw_exec QueueLock.acquire QueueLock.release op l)) = true).
Proof.
  destruct l as [b q]. simpl. intros H.
  destruct op as [c|]; simpl.
  - unfold QueueLock.acquire, QueueLock.tryAcquire, push.
    destruct b; simpl; [auto|].
    destruct q as [|x q]; [simpl; auto|].
    assert (false = true) by (apply H; discriminate). discriminate.
  - unfold QueueLock.release, QueueLock.tryAcquire.
    destruct q as [|x q]; simpl; rewrite ?app_nil_r; auto.
Qed.

(** X15. QueueLock serves in call order whatever its callers do.  Let release
    functions be invoked at any time and any number of times: the promises
    resolved so far, followed by the queue, are still the calls of [acquire()]
    in order, and nobody is queued while the lock is free. *)
Theorem ql_raw_fifo (ops : list RawOp) :
  raw_requests ops =
    snd (raw_run QueueLock.acquire QueueLock.release ops QueueLock.init)
    ++ QueueLock.queue
         (fst (raw_run QueueLock.acquire QueueLock.release ops QueueLock.init)) /\
  (QueueLock.queue
     (fst (raw_run QueueLock.acquire QueueLock.release ops QueueLock.init)) <> [] ->
   QueueLock.locked
     (fst (raw_run QueueLock.acquire QueueLock.release ops QueueLock.init)) = true).
Proof.
  apply (@raw_run_order _ QueueLock.acquire QueueLock.release QueueLock.queue
           (fun l => QueueLock.queue l <> [] -> QueueLock.locked l = true)
           ql_raw_step ops QueueLock.init).
  simpl. congruence.
Qed.

Lemma sem_raw_step (op : RawOp) (l : SemaphoreLock.t) :
  (0 <= SemaphoreLock.permits l)%Z /\
  (SemaphoreLock.queue l <> [] -> SemaphoreLock.permits l = 0%Z) ->
  SemaphoreLock.queue l ++ raw_requests [op] =
    snd (raw_exec SemaphoreLock.acquire SemaphoreLock.release op l)
    ++ SemaphoreLock.queue
         (fst (raw_exec SemaphoreLock.acquire SemaphoreLock.release op l)) /\
  (0 <= SemaphoreLock.permits
          (fst (raw_exec SemaphoreLock.acquire SemaphoreLock.release op l)))%Z /\
  (SemaphoreLock.queue
     (fst (raw_exec SemaphoreLock.acquire SemaphoreLock.release op l)) <> [] ->
   SemaphoreLock.permits
     (fst (raw_exec SemaphoreLock.acquire SemaphoreLock.release op l)) = 0%Z).
Proof.
  destruct l as [p q]. simpl. intros [H0 H].
  destruct op as [c|]; simpl.
  - unfold SemaphoreLock.acquire, SemaphoreLock.tryAcquire, push. simpl.
    destruct (Z.ltb_spec 0 p) as [Hp|Hp]; simpl.
    + destruct q as [|x q];
        [|assert (p = 0%Z) by (apply H; discriminate); exfalso; lia].
      simpl. repeat split; auto; try lia; congruence.
    + repeat split; auto. intros _. lia.
  - unfold SemaphoreLock.release, SemaphoreLock.tryAcquire. simpl.
    destruct q as [|x q]; simpl.
    + repeat split; try lia. congruence.
    + assert (Hp : p = 0%Z) by (apply H; discriminate). subst p. simpl.
      repeat split; rewrite ?app_nil_r; auto; intros; lia.
Qed.

(** X16. SemaphoreLock serves in call order whatever its callers do.  Let
    release functions be invoked at any time and any number of times: the
    promises resolved so far, followed by the queue, are still the calls of
    [acquire()] in order, [permits] is never negative, and nobody is queued
    while a permit is left. *)
Theorem sem_raw_fifo (k : Z) (ops : list RawOp) :
  (0 <= k)%Z ->
  raw_requests ops =
    snd (raw_run SemaphoreLock.acquire SemaphoreLock.release ops (SemaphoreLock.init k))
    ++ SemaphoreLock.queue
         (fst (raw_run SemaphoreLock.acquire SemaphoreLock.release ops
                 (SemaphoreLock.init k))) /\
  (0 <= SemaphoreLock.permits
          (fst (raw_run SemaphoreLock.acquire SemaphoreLock.release ops
                  (SemaphoreLock.init k))))%Z /\
  (SemaphoreLock.queue
     (fst (raw_run SemaphoreLock.acquire SemaphoreLock.release ops
             (SemaphoreLock.init k))) <> [] ->
   SemaphoreLock.permits
     (fst (raw_run SemaphoreLock.acquire SemaphoreLock.release ops
             (SemaphoreLock.init k))) = 0%Z).
Proof.
  intros Hk.
  apply (@raw_run_order _ SemaphoreLock.acquire SemaphoreLock.release
           SemaphoreLock.queue
           (fun l => (0 <= SemaphoreLock.permits l)%Z /\
                     (SemaphoreLock.queue l <> [] -> SemaphoreLock.permits l = 0%Z))
           sem_raw_step ops (SemaphoreLock.init k)).
  simpl. split; [assumption | congruence].
Qed.

Lemma sem_raw_fifo_witness :
  raw_requests [RawAcquire 1; RawAcquire 2; RawRelease; RawRelease; RawRelease;
                RawAcquire 3] =
  snd (raw_run SemaphoreLock.acquire SemaphoreLock.release
         [RawAcquire 1; RawAcquire 2; RawRelease; RawRelease; RawRelease;
          RawAcquire 3] (SemaphoreLock.init 1))
  ++ SemaphoreLock.queue
       (fst (raw_run SemaphoreLock.acquire SemaphoreLock.release
               [RawAcquire 1; RawAcquire 2; RawRelease; RawRelease; RawRelease;
                RawAcquire 3] (SemaphoreLock.init 1))).
Proof.
  apply (sem_raw_fifo (k := 1)). lia.
Defined.

(** ** SimpleLock: the log and the race *)

Lemma sl_console_step (s s' : SimpleLock.Sys) (op : SimpleLock.Op) :
  sl_inv s ->
  (exists done : list Caller,
     SimpleLock.console s =
     flat_map (fun c => [acquired_line c; released_line c]) done
     ++ map acquired_line (SimpleLock.holders s)) ->
  SimpleLock.exec op s = Some s' ->
  exists done : list Caller,
    SimpleLock.console s' =
    flat_map (fun c => [acquired_line c; released_line c]) done
    ++ map acquired_line (SimpleLock.holders s').
Proof.
  destruct s as [[b w] ws hs out]. unfold sl_inv. simpl. intros Hi [done Hd].
  assert (Hres : forall c rest,
    exists done' : list Caller,
      SimpleLock.console
        (SimpleLock.resume c (SimpleLock.mkSys (SimpleLock.mk b w) ws hs out) rest) =
      flat_map (fun c => [acquired_line c; released_line c]) done'
      ++ map acquired_line
           (SimpleLock.holders
              (SimpleLock.resume c (SimpleLock.mkSys (SimpleLock.mk b w) ws hs out) rest))).
  { intros c rest. exists done. unfold SimpleLock.resume, SimpleLock.acquire. simpl.
    destruct b; simpl.
    - rewrite app_nil_r. assumption.
    - destruct hs; [|discriminate]. simpl map in *. rewrite app_nil_r in Hd.
      rewrite Hd. reflexivity. }
  destruct op as [c|c|c]; simpl.
  - destruct (mem c ws || mem c hs); [discriminate|]. intros [= <-]. apply Hres.
  - destruct (mem c ws); [|discriminate]. intros [= <-]. apply Hres.
  - destruct (mem c hs) eqn:M; [|discriminate]. apply mem_In in M.
    intros [= <-]. simpl.
    destruct b; [|destruct hs; [destruct M | discriminate]].
    destruct (singleton_of_length _ Hi) as [h Hh]. subst hs.
    destruct M as [->|[]]. rewrite remove1_self. exists (done ++ [c]).
    rewrite Hd, flat_map_app. simpl. rewrite app_nil_r, <- app_assoc. reflexivity.
Qed.

(** X8. The log of SimpleLock.  Whatever the interleaving of threads that
    acquire and then release, the lines logged so far are pairs, the line
    "Acquired lock" of a thread directly followed by the line "Released lock"
    of the same thread, and after the pairs the line "Acquired lock" of the
    thread that holds the lock, if one does. *)
Theorem sl_console_bracketed (w : Z) (s : SimpleLock.Sys) :
  SimpleLock.reachable (SimpleLock.new w) s ->
  exists done : list Caller,
    SimpleLock.console s =
    flat_map (fun c => [acquired_line c; released_line c]) done
    ++ map acquired_line (SimpleLock.holders s).
Proof.
  intros Hs.
  assert (H : sl_inv s /\
              exists done : list Caller,
                SimpleLock.console s =
                flat_map (fun c => [acquired_line c; released_line c]) done
                ++ map acquired_line (SimpleLock.holders s)).
  { induction Hs as [|s op s' _ [IH1 IH2] E].
    - split; [reflexivity|]. exists []. reflexivity.
    - split; [eapply sl_inv_step | eapply sl_console_step]; eassumption. }
  apply H.
Qed.

Lemma sl_console_bracketed_witness :
  exists done : list Caller,
    SimpleLock.console sl_demo_state =
    flat_map (fun c => [acquired_line c; released_line c]) done
    ++ map acquired_line (SimpleLock.holders sl_demo_state).
Proof.
  apply (sl_console_bracketed (w := 2000)).
  apply sl_run_reachable
    with (ops := sl_demo) (s := SimpleLock.start (SimpleLock.new 2000));
    [constructor | vm_compute; reflexivity].
Defined.

Lemma sl_run_app (ops1 ops2 : list SimpleLock.Op) :
  forall s,
    SimpleLock.run (ops1 ++ ops2) s =
    match SimpleLock.run ops1 s with
    | Some s1 => SimpleLock.run ops2 s1
    | None => None
    end.
Proof.
  induction ops1 as [|op ops1 IH]; intros s; simpl; [reflexivity|].
  destruct (SimpleLock.exec op s); [apply IH | reflexivity].
Qed.

Lemma sl_round (a b : Caller) (w : Z) (out : list string) :
  a <> b ->
  SimpleLock.run
    [SimpleLock.Wake b; SimpleLock.Release a; SimpleLock.Call a]
    (SimpleLock.mkSys (SimpleLock.mk true w) [b] [a] out) =
  Some (SimpleLock.mkSys (SimpleLock.mk true w) [b] [a]
          (out ++ [released_line a; acquired_line a])).
Proof.
  intros Hab. apply Nat.eqb_neq in Hab.
  unfold SimpleLock.run, SimpleLock.exec. simpl SimpleLock.waiting.
  rewrite mem_self, remove1_self.
  unfold SimpleLock.resume at 1. simpl.
  rewrite !Nat.eqb_refl. simpl. rewrite Hab. simpl.
  unfold SimpleLock.resume. simpl.
  rewrite app_nil_r, <- app_assoc. reflexivity.
Qed.

Lemma sl_rounds_run (a b : Caller) (w : Z) (n : nat) :
  a <> b ->
  forall out,
    SimpleLock.run (sl_rounds a b n)
      (SimpleLock.mkSys (SimpleLock.mk true w) [b] [a] out) =
    Some (SimpleLock.mkSys (SimpleLock.mk true w) [b] [a]
            (out ++ concat (repeat [released_line a; acquired_line a] n))).
Proof.
  intros Hab. induction n as [|n IH]; intros out.
  - simpl. rewrite app_nil_r. reflexivity.
  - pose proof (sl_round w out Hab) as Hr.
    change (sl_rounds a b (S n)) with
      ([SimpleLock.Wake b; SimpleLock.Release a; SimpleLock.Call a] ++ sl_rounds a b n).
    rewrite sl_run_app, Hr, IH. simpl. rewrite <- !app_assoc. reflexivity.
Qed.

(** X9. SimpleLock can starve a thread.  For every [n] there is an
    interleaving in which thread [b] asks for the lock right after thread
    [a], polls [n] times and finds the lock taken each time, while [a]
    releases and takes the lock again [n] times, [b] still waiting at the
    end. *)
Theorem sl_starvation (a b : Caller) (w : Z) (n : nat) :
  a <> b ->
  SimpleLock.run (sl_starve a b n) (SimpleLock.start (SimpleLock.new w)) =
  Some (SimpleLock.mkSys (SimpleLock.mk true w) [b] [a]
          (acquired_line a
           :: concat (repeat [released_line a; acquired_line a] n))).
Proof.
  intros Hab. unfold sl_starve.
  assert (E : SimpleLock.run [SimpleLock.Call a; SimpleLock.Call b]
                (SimpleLock.start (SimpleLock.new w)) =
              Some (SimpleLock.mkSys (SimpleLock.mk true w) [b] [a]
                      [acquired_line a])).
  { apply Nat.eqb_neq in Hab. rewrite Nat.eqb_sym in Hab.
    unfold SimpleLock.run, SimpleLock.exec. simpl.
    unfold SimpleLock.resume at 1. simpl. rewrite Hab. simpl. reflexivity. }
  change (SimpleLock.Call a :: SimpleLock.Call b :: sl_rounds a b n) with
    ([SimpleLock.Call a; SimpleLock.Call b] ++ sl_rounds a b n).
  revert E. generalize [SimpleLock.Call a; SimpleLock.Call b].
  intros ops E.
  rewrite sl_run_app, E, (sl_rounds_run w n Hab). reflexivity.
Qed.

Lemma sl_starvation_witness :
  SimpleLock.run (sl_starve 1 2 3) (SimpleLock.start (SimpleLock.new 2000)) =
  Some (SimpleLock.mkSys (SimpleLock.mk true 2000) [2] [1]
          (acquired_line 1
           :: concat (repeat [released_line 1; acquired_line 1] 3))).
Proof.
  apply (sl_starvation (a := 1) (b := 2)). discriminate.
Defined.

(** ** ReadWriteLock: writers *)

Lemma no_write_among_reads (c : Caller) (rq : list Caller) :
  ~ In (ReadWriteLock.Write, c) (map (pair ReadWriteLock.Read) rq).
Proof.
  intros H. apply in_map_iff in H. destruct H as (x & E & _). discriminate.
Qed.

Lemma tryAcquireWrite_exclusive (c : Caller) (s : ReadWriteLock.t) :
  write_grant_exclusive (ReadWriteLock.tryAcquireWrite c s).
Proof.
  unfold write_grant_exclusive, ReadWriteLock.tryAcquireWrite.
  destruct (ReadWriteLock.writer s); simpl; [tauto|].
  destruct (Z.eqb_spec (ReadWriteLock.readers s) 0) as [E|N]; simpl; [|tauto].
  intros c' [H|[]]. injection H as <-. auto.
Qed.

(** X10. A writer is alone.  Whichever operation of ReadWriteLock resolves
    the promise of a writer resolves no other promise in that run and leaves
    [writer] set and [readers] at zero; this holds in every state of the
    lock. *)
Theorem rw_write_grant_exclusive (s : ReadWriteLock.t) :
  (forall c,
     write_grant_exclusive (ReadWriteLock.acquireRead c s) /\
     write_grant_exclusive (ReadWriteLock.acquireWrite c s)) /\
  write_grant_exclusive (ReadWriteLock.releaseRead s) /\
  (forall fuel r, ReadWriteLock.releaseWrite fuel s = Some r ->
     write_grant_exclusive r).
Proof.
  split; [|split].
  - intros c. split; [|apply tryAcquireWrite_exclusive].
    unfold write_grant_exclusive, ReadWriteLock.acquireRead,
      ReadWriteLock.tryAcquireRead.
    destruct (negb (ReadWriteLock.writer s)
              && (length (ReadWriteLock.writeQueue s) =? 0)%nat); simpl.
    + intros c' [H|[]]. discriminate.
    + tauto.
  - unfold ReadWriteLock.releaseRead. simpl.
    destruct ((ReadWriteLock.readers s - 1 =? 0)%Z
              && (0 <? length (ReadWriteLock.writeQueue s))%nat).
    + destruct (ReadWriteLock.writeQueue s) as [|w ws]; simpl.
      * intros c []. 
      * apply tryAcquireWrite_exclusive.
    + intros c [].
  - intros fuel r Hr.
    destruct (ReadWriteLock.writeQueue s) as [|w ws] eqn:Hq.
    + rewrite (releaseWrite_batch fuel s Hq) in Hr.
      destruct (length (ReadWriteLock.readQueue s) <=? fuel)%nat; [|discriminate].
      injection Hr as <-. intros c Hc. simpl in Hc.
      apply no_write_among_reads in Hc. destruct Hc.
    + rewrite (releaseWrite_head fuel s Hq) in Hr. injection Hr as <-.
      apply tryAcquireWrite_exclusive.
Qed.

(** X11. The last reader out lets the next writer in.  When a reader invokes
    its release function, no writer is active; if it was the only active
    reader and a writer is queued, the head of the write queue is granted in
    the same run and queued readers stay queued; otherwise [readers] goes down
    by one and nobody is woken. *)
Theorem rw_last_reader_wakes_writer (s : ReadWriteLock.Sys) (c : Caller) :
  ReadWriteLock.reachable ReadWriteLock.init s ->
  In c (ReadWriteLock.readHeld s) ->
  ReadWriteLock.writer (ReadWriteLock.lock s) = false /\
  ReadWriteLock.writeHeld s = [] /\
  (forall w ws,
     ReadWriteLock.readers (ReadWriteLock.lock s) = 1%Z ->
     ReadWriteLock.writeQueue (ReadWriteLock.lock s) = w :: ws ->
     ReadWriteLock.exec (ReadWriteLock.ReleaseRead c) s =
     Some (ReadWriteLock.mkSys
             (ReadWriteLock.mk 0 true
                (ReadWriteLock.readQueue (ReadWriteLock.lock s)) ws)
             (ReadWriteLock.calls s) [] [w])) /\
  (ReadWriteLock.readers (ReadWriteLock.lock s) <> 1%Z \/
   ReadWriteLock.writeQueue (ReadWriteLock.lock s) = [] ->
   ReadWriteLock.exec (ReadWriteLock.ReleaseRead c) s =
   Some (ReadWriteLock.mkSys
           (ReadWriteLock.mk
              (ReadWriteLock.readers (ReadWriteLock.lock s) - 1) false
              (ReadWriteLock.readQueue (ReadWriteLock.lock s))
              (ReadWriteLock.writeQueue (ReadWriteLock.lock s)))
           (ReadWriteLock.calls s)
           (remove1 c (ReadWriteLock.readHeld s)) [])).
Proof.
  intros Hs Hc. apply rw_inv_reachable in Hs. destruct Hs as [H1 H2 H3 _ _].
  pose proof (remove1_length c _ Hc) as Hl. apply mem_In in Hc.
  destruct s as [[r b rq wq] cs rh wh]. simpl in *.
  assert (Hb : b = false).
  { destruct b; [|reflexivity]. specialize (H3 eq_refl). lia. }
  subst b.
  assert (Hwh : wh = []) by (destruct wh; [reflexivity | discriminate]).
  subst wh. rewrite Hc. unfold ReadWriteLock.releaseRead, ReadWriteLock.settle.
  simpl. repeat split.
  - intros w ws Hr Hq.
    assert (Hrh : remove1 c rh = []).
    { destruct (remove1 c rh); [reflexivity|]. simpl in Hl. lia. }
    rewrite Hrh, Hr, Hq. reflexivity.
  - intros [Hr|Hq].
    + destruct (Z.eqb_spec (r - 1) 0) as [E|N]; [lia|]. simpl.
      rewrite !app_nil_r. reflexivity.
    + subst wq. rewrite andb_false_r. simpl. rewrite !app_nil_r. reflexivity.
Qed.

Lemma rw_last_reader_wakes_writer_witness :
  ReadWriteLock.exec (ReadWriteLock.ReleaseRead 1)
    (ReadWriteLock.mkSys (ReadWriteLock.mk 1 false [3] [2]) [1; 2; 3] [1] []) =
  Some (ReadWriteLock.mkSys (ReadWriteLock.mk 0 true [3] []) [1; 2; 3] [] [2]).
Proof.
  apply (@rw_last_reader_wakes_writer
           (ReadWriteLock.mkSys (ReadWriteLock.mk 1 false [3] [2]) [1; 2; 3] [1] [])
           1).
  - apply rw_run_reachable
      with (ops := [ReadWriteLock.AcquireRead 1; ReadWriteLock.AcquireWrite 2;
                    ReadWriteLock.AcquireRead 3])
           (s := ReadWriteLock.start ReadWriteLock.init);
      [constructor | vm_compute; reflexivity].
  - simpl. tauto.
  - reflexivity.
  - reflexivity.
Defined.

(** ** ReadWriteLock: order of service *)

Lemma grants_app (m : ReadWriteLock.Mode) (a b : list ReadWriteLock.Grant) :
  ReadWriteLock.grants m (a ++ b) =
  ReadWriteLock.grants m a ++ ReadWriteLock.grants m b.
Proof.
  unfold ReadWriteLock.grants. rewrite filter_app, map_app. reflexivity.
Qed.

Lemma grants_of_reads (m : ReadWriteLock.Mode) (rq : list Caller) :
  ReadWriteLock.grants m (map (pair ReadWriteLock.Read) rq) =
  match m with ReadWriteLock.Read => rq | ReadWriteLock.Write => [] end.
Proof.
  destruct m; [apply grants_read_readers | apply grants_write_readers].
Qed.

Lemma rw_fifo_step (m : ReadWriteLock.Mode) (s s' : ReadWriteLock.Sys)
    (op : ReadWriteLock.Op) :
  rw_inv s -> ReadWriteLock.exec op s = Some s' ->
  rw_waiting m (ReadWriteLock.lock s) ++ rw_request m op =
  ReadWriteLock.grants m (rw_out op s) ++ rw_waiting m (ReadWriteLock.lock s').
Proof.
  destruct s as [[r w rq wq] cs rh wh]. intros [H1 H2 H3 H4 H5]. simpl in *.
  destruct op as [c|c|c|c fuel]; simpl.
  - destruct (mem c cs); [discriminate|]. intros [= <-].
    unfold ReadWriteLock.acquireRead, ReadWriteLock.tryAcquireRead,
      ReadWriteLock.settle, push. simpl.
    destruct w, wq; destruct m; simpl; rewrite ?app_nil_r; try reflexivity.
    destruct rq as [|x rq]; [reflexivity|].
    destruct H4 as [H4|H4]; [discriminate | discriminate | congruence].
  - destruct (mem c cs); [discriminate|]. intros [= <-].
    unfold ReadWriteLock.acquireWrite, ReadWriteLock.tryAcquireWrite,
      ReadWriteLock.settle, push. simpl.
    destruct w; simpl; [destruct m; simpl; rewrite ?app_nil_r; reflexivity|].
    destruct (Z.eqb_spec r 0) as [E|N]; simpl;
      destruct m; simpl; rewrite ?app_nil_r; try reflexivity.
    destruct wq as [|x wq]; [reflexivity|].
    destruct H5 as [H5|H5]; [discriminate | discriminate | lia].
  - destruct (mem c rh) eqn:M; [|discriminate]. apply mem_In in M.
    pose proof (remove1_length c rh M) as Hl. intros [= <-].
    assert (Hw : w = false).
    { destruct w; [|reflexivity]. specialize (H3 eq_refl). lia. }
    subst w. unfold ReadWriteLock.releaseRead, ReadWriteLock.tryAcquireWrite,
      ReadWriteLock.settle. simpl.
    destruct (Z.eqb_spec (r - 1) 0) as [E|N]; simpl.
    + destruct wq as [|x wq]; simpl.
      * destruct m; simpl; rewrite ?app_nil_r; reflexivity.
      * rewrite E. simpl. destruct m; simpl; rewrite ?app_nil_r; reflexivity.
    + destruct m; simpl; rewrite ?app_nil_r; reflexivity.
  - destruct (mem c wh) eqn:M; [|discriminate]. apply mem_In in M.
    pose proof (remove1_length c wh M) as Hl.
    assert (Hw : w = true).
    { destruct w; [reflexivity|]. rewrite H2 in Hl. discriminate. }
    subst w. specialize (H3 eq_refl).
    unfold ReadWriteLock.releaseWrite, ReadWriteLock.tryAcquireWrite,
      ReadWriteLock.settle. simpl.
    destruct wq as [|x wq]; simpl.
    + rewrite wakeReaders_batch. destruct (length rq <=? fuel)%nat; [|discriminate].
      intros [= <-]. simpl. rewrite grants_of_reads.
      destruct m; simpl; rewrite ?app_nil_r; reflexivity.
    + rewrite H3. simpl. intros [= <-]. simpl.
      destruct m; simpl; rewrite ?app_nil_r; reflexivity.
Qed.

Lemma rw_run_inv (ops : list ReadWriteLock.Op) :
  forall s s', rw_inv s -> ReadWriteLock.run ops s = Some s' -> rw_inv s'.
Proof.
  induction ops as [|op ops IH]; simpl; intros s s' Hs Hr.
  - injection Hr as <-. assumption.
  - destruct (ReadWriteLock.exec op s) as [s1|] eqn:E; [|discriminate].
    eapply IH; [|eassumption]. eapply rw_inv_step; eassumption.
Qed.

Lemma rw_inv_start : rw_inv (ReadWriteLock.start ReadWriteLock.init).
Proof.
  constructor; simpl; auto; congruence.
Qed.

Lemma rw_fifo_run (m : ReadWriteLock.Mode) (ops : list ReadWriteLock.Op) :
  forall s s', rw_inv s -> ReadWriteLock.run ops s = Some s' ->
    rw_waiting m (ReadWriteLock.lock s) ++ rw_requests m ops =
    ReadWriteLock.grants m (rw_log ops s) ++ rw_waiting m (ReadWriteLock.lock s').
Proof.
  induction ops as [|op ops IH]; simpl; intros s s' Hs Hr.
  - injection Hr as <-. rewrite app_nil_r. reflexivity.
  - destruct (ReadWriteLock.exec op s) as [s1|] eqn:E; [|discriminate].
    pose proof (@rw_fifo_step m s s1 op Hs E) as H1.
    pose proof (IH _ _ (@rw_inv_step s s1 op Hs E) Hr) as H2.
    rewrite grants_app, app_assoc, H1, <- !app_assoc, H2. reflexivity.
Qed.

(** X12. ReadWriteLock serves each side in call order.  In every run, the
    readers granted so far followed by the read queue are the calls of
    [acquireRead()] in order, and the writers granted so far followed by the
    write queue are the calls of [acquireWrite()] in order. *)
Theorem rw_mode_fifo (m : ReadWriteLock.Mode) (ops : list ReadWriteLock.Op)
    (s : ReadWriteLock.Sys) :
  ReadWriteLock.run ops (ReadWriteLock.start ReadWriteLock.init) = Some s ->
  rw_requests m ops =
  ReadWriteLock.grants m (rw_log ops (ReadWriteLock.start ReadWriteLock.init))
  ++ rw_waiting m (ReadWriteLock.lock s).
Proof.
  intros Hr. pose proof (@rw_fifo_run m ops _ _ rw_inv_start Hr) as H.
  destruct m; exact H.
Qed.

Lemma rw_mode_fifo_witness :
  rw_requests ReadWriteLock.Read rw_demo =
  ReadWriteLock.grants ReadWriteLock.Read
    (rw_log rw_demo (ReadWriteLock.start ReadWriteLock.init))
  ++ rw_waiting ReadWriteLock.Read (ReadWriteLock.lock rw_demo_state).
Proof.
  apply (rw_mode_fifo ReadWriteLock.Read rw_demo). vm_compute. reflexivity.
Defined.

Lemma rw_run_app (ops1 ops2 : list ReadWriteLock.Op) :
  forall s,
    ReadWriteLock.run (ops1 ++ ops2) s =
    match ReadWriteLock.run ops1 s with
    | Some s1 => ReadWriteLock.run ops2 s1
    | None => None
    end.
Proof.
  induction ops1 as [|op ops1 IH]; intros s; simpl; [reflexivity|].
  destruct (ReadWriteLock.exec op s); [apply IH | reflexivity].
Qed.

Lemma tryAcquireRead_clear (c : Caller) (s : ReadWriteLock.t) :
  read_grants_clear (ReadWriteLock.tryAcquireRead c s).
Proof.
  unfold read_grants_clear, ReadWriteLock.tryAcquireRead.
  destruct (ReadWriteLock.writer s); simpl; [tauto|].
  destruct (ReadWriteLock.writeQueue s); simpl; [auto | tauto].
Qed.

Lemma rw_exec_read_grant (op : ReadWriteLock.Op) (s s' : ReadWriteLock.Sys)
    (c : Caller) :
  ReadWriteLock.exec op s = Some s' ->
  In (ReadWriteLock.Read, c) (rw_out op s) ->
  ReadWriteLock.writer (ReadWriteLock.lock s') = false /\
  ReadWriteLock.writeQueue (ReadWriteLock.lock s') = [].
Proof.
  destruct op as [x|x|x|x fuel]; simpl.
  - destruct (mem x (ReadWriteLock.calls s)); [discriminate|]. intros [= <-].
    simpl. apply tryAcquireRead_clear.
  - destruct (mem x (ReadWriteLock.calls s)); [discriminate|]. intros [= <-].
    simpl. apply tryAcquireWrite_no_read.
  - destruct (mem x (ReadWriteLock.readHeld s)); [|discriminate]. intros [= <-].
    simpl. unfold ReadWriteLock.releaseRead. simpl.
    destruct ((ReadWriteLock.readers (ReadWriteLock.lock s) - 1 =? 0)%Z
              && (0 <? length (ReadWriteLock.writeQueue (ReadWriteLock.lock s)))%nat).
    + destruct (ReadWriteLock.writeQueue (ReadWriteLock.lock s)) as [|w ws]; simpl.
      * intros [].
      * apply tryAcquireWrite_no_read.
    + intros [].
  - destruct (mem x (ReadWriteLock.writeHeld s)); [|discriminate].
    destruct (ReadWriteLock.writeQueue (ReadWriteLock.lock s)) as [|w ws] eqn:Hq.
    + rewrite (releaseWrite_batch fuel _ Hq).
      destruct (length (ReadWriteLock.readQueue (ReadWriteLock.lock s)) <=? fuel)%nat;
        [|discriminate].
      intros [= <-]. simpl. auto.
    + rewrite (releaseWrite_head fuel _ Hq). intros [= <-]. simpl.
      apply tryAcquireWrite_no_read.
Qed.

Lemma grants_nonempty (m : ReadWriteLock.Mode) (out : list ReadWriteLock.Grant) :
  ReadWriteLock.grants m out <> [] -> exists c, In (m, c) out.
Proof.
  unfold ReadWriteLock.grants. induction out as [|[m' c] out IH]; simpl.
  - congruence.
  - destruct m, m'; simpl; intros H;
      try (exists c; left; reflexivity);
      destruct (IH H) as [x Hx]; exists x; right; assumption.
Qed.

(** X13. Writer preference.  At the moment an operation grants a reader, no
    writer is active and none is queued, and every call of [acquireWrite()]
    made so far has been granted: a reader never gets in ahead of a writer
    that asked before that moment, whether the reader asked first or not. *)
Theorem rw_writer_preference (ops : list ReadWriteLock.Op)
    (op : ReadWriteLock.Op) (s s' : ReadWriteLock.Sys) :
  ReadWriteLock.run ops (ReadWriteLock.start ReadWriteLock.init) = Some s ->
  ReadWriteLock.exec op s = Some s' ->
  ReadWriteLock.grants ReadWriteLock.Read (rw_out op s) <> [] ->
  ReadWriteLock.writer (ReadWriteLock.lock s') = false /\
  ReadWriteLock.writeQueue (ReadWriteLock.lock s') = [] /\
  rw_requests ReadWriteLock.Write (ops ++ [op]) =
  ReadWriteLock.grants ReadWriteLock.Write
    (rw_log (ops ++ [op]) (ReadWriteLock.start ReadWriteLock.init)).
Proof.
  intros Hr He Hg. apply grants_nonempty in Hg. destruct Hg as [c Hc].
  destruct (@rw_exec_read_grant op s s' c He Hc) as [Hw Hq].
  split; [assumption|]. split; [assumption|].
  assert (Hr' : ReadWriteLock.run (ops ++ [op])
                  (ReadWriteLock.start ReadWriteLock.init) = Some s').
  { rewrite rw_run_app, Hr. simpl. rewrite He. reflexivity. }
  pose proof (@rw_fifo_run ReadWriteLock.Write _ _ _ rw_inv_start Hr') as H.
  simpl in H. rewrite Hq, app_nil_r in H. exact H.
Qed.

Lemma rw_writer_preference_witness :
  rw_requests ReadWriteLock.Write (rw_demo ++ [ReadWriteLock.ReleaseWrite 3 2]) =
  ReadWriteLock.grants ReadWriteLock.Write
    (rw_log (rw_demo ++ [ReadWriteLock.ReleaseWrite 3 2])
       (ReadWriteLock.start ReadWriteLock.init)).
Proof.
  apply (@rw_writer_preference rw_demo (ReadWriteLock.ReleaseWrite 3 2)
           rw_demo_state
           (ReadWriteLock.mkSys (ReadWriteLock.mk 2 false [] []) [1; 2; 3; 4; 5]
              [4; 5] [])).
  - vm_compute. reflexivity.
  - vm_compute. reflexivity.
  - vm_compute. discriminate.
Defined.

Lemma rw_writer_round (i : nat) (cs : list Caller) :
  mem (S i) cs = false ->
  ReadWriteLock.run
    [ReadWriteLock.AcquireWrite (S i); ReadWriteLock.ReleaseWrite i 0]
    (ReadWriteLock.mkSys (ReadWriteLock.mk 0 true [0] []) cs [] [i]) =
  Some (ReadWriteLock.mkSys (ReadWriteLock.mk 0 true [0] []) (cs ++ [S i]) [] [S i]).
Proof.
  intros Hc. unfold ReadWriteLock.run, ReadWriteLock.exec.
  simpl ReadWriteLock.calls. rewrite Hc.
  unfold ReadWriteLock.settle at 1. simpl.
  rewrite Nat.eqb_refl. reflexivity.
Qed.

Lemma rw_writer_stream_run (n : nat) :
  forall (i : nat) (cs : list Caller),
    (forall j, i < j -> ~ In j cs) ->
    ReadWriteLock.run (writer_stream i n)
      (ReadWriteLock.mkSys (ReadWriteLock.mk 0 true [0] []) cs [] [i]) =
    Some (ReadWriteLock.mkSys (ReadWriteLock.mk 0 true [0] [])
            (cs ++ seq (S i) n) [] [i + n]).
Proof.
  induction n as [|n IH]; intros i cs Hf.
  - simpl. rewrite app_nil_r, Nat.add_0_r. reflexivity.
  - change (writer_stream i (S n)) with
      ([ReadWriteLock.AcquireWrite (S i); ReadWriteLock.ReleaseWrite i 0]
       ++ writer_stream (S i) n).
    rewrite rw_run_app, rw_writer_round by (apply mem_false, Hf; lia).
    rewrite IH.
    + simpl seq. rewrite <- app_assoc. simpl. do 3 f_equal. lia.
    + intros j Hj Hin. apply in_app_or in Hin. destruct Hin as [Hin|[E|[]]].
      * apply (Hf j); [lia | assumption].
      * lia.
Qed.

(** X14. Writers can starve a reader.  For every [n] there is a run in which
    a reader asks to read while the first writer holds the lock, [n] further
    writers ask one after the other, each before the writer before it
    releases, and after all these releases the reader is still queued and
    holds no release function, the last writer being active. *)
Theorem rw_writers_starve_reader (n : nat) :
  ReadWriteLock.run (rw_starve n) (ReadWriteLock.start ReadWriteLock.init) =
  Some (ReadWriteLock.mkSys (ReadWriteLock.mk 0 true [0] [])
          (1 :: 0 :: seq 2 n) [] [S n]).
Proof.
  unfold rw_starve.
  change (ReadWriteLock.AcquireWrite 1 :: ReadWriteLock.AcquireRead 0
          :: writer_stream 1 n)
    with ([ReadWriteLock.AcquireWrite 1; ReadWriteLock.AcquireRead 0]
          ++ writer_stream 1 n).
  rewrite rw_run_app.
  assert (E : ReadWriteLock.run
                [ReadWriteLock.AcquireWrite 1; ReadWriteLock.AcquireRead 0]
                (ReadWriteLock.start ReadWriteLock.init) =
              Some (ReadWriteLock.mkSys (ReadWriteLock.mk 0 true [0] [])
                      [1; 0] [] [1])) by reflexivity.
  rewrite E, rw_writer_stream_run.
  - reflexivity.
  - intros j Hj [H|[H|[]]]; lia.
Qed.

(** ** ReadWriteLock: balance and shared reading *)

Lemma rw_count_step (s s' : ReadWriteLock.Sys) (op : ReadWriteLock.Op) :
  rw_inv s -> ReadWriteLock.exec op s = Some s' ->
  length (ReadWriteLock.readHeld s') + length (ReadWriteLock.writeHeld s')
  + length (ReadWriteLock.readQueue (ReadWriteLock.lock s'))
  + length (ReadWriteLock.writeQueue (ReadWriteLock.lock s'))
  + (if rw_is_release op then 1 else 0) =
  length (ReadWriteLock.readHeld s) + length (ReadWriteLock.writeHeld s)
  + length (ReadWriteLock.readQueue (ReadWriteLock.lock s))
  + length (ReadWriteLock.writeQueue (ReadWriteLock.lock s))
  + (if rw_is_release op then 0 else 1).
Proof.
  destruct s as [[r w rq wq] cs rh wh]. intros [H1 H2 H3 _ _]. simpl in *.
  destruct op as [c|c|c|c fuel]; simpl.
  - destruct (mem c cs); [discriminate|]. intros [= <-].
    unfold ReadWriteLock.acquireRead, ReadWriteLock.tryAcquireRead,
      ReadWriteLock.settle, push. simpl.
    destruct w, wq; simpl; rewrite ?length_app; simpl; lia.
  - destruct (mem c cs); [discriminate|]. intros [= <-].
    unfold ReadWriteLock.acquireWrite, ReadWriteLock.tryAcquireWrite,
      ReadWriteLock.settle, push. simpl.
    destruct w; simpl; [rewrite ?length_app; simpl; lia|].
    destruct (r =? 0)%Z; simpl; rewrite ?length_app; simpl; lia.
  - destruct (mem c rh) eqn:M; [|discriminate]. apply mem_In in M.
    pose proof (remove1_length c rh M) as Hl. intros [= <-].
    assert (Hw : w = false).
    { destruct w; [|reflexivity]. specialize (H3 eq_refl). lia. }
    subst w. unfold ReadWriteLock.releaseRead, ReadWriteLock.tryAcquireWrite,
      ReadWriteLock.settle. simpl.
    destruct (Z.eqb_spec (r - 1) 0) as [E|N]; simpl.
    + destruct wq as [|x wq]; simpl.
      * rewrite ?length_app. simpl. lia.
      * rewrite ?E. simpl. rewrite ?length_app. simpl. lia.
    + rewrite ?length_app. simpl. lia.
  - destruct (mem c wh) eqn:M; [|discriminate]. apply mem_In in M.
    pose proof (remove1_length c wh M) as Hl.
    assert (Hw : w = true).
    { destruct w; [reflexivity|]. rewrite H2 in Hl. discriminate. }
    subst w. specialize (H3 eq_refl).
    unfold ReadWriteLock.releaseWrite, ReadWriteLock.tryAcquireWrite,
      ReadWriteLock.settle. simpl.
    destruct wq as [|x wq]; simpl.
    + rewrite wakeReaders_batch. destruct (length rq <=? fuel)%nat; [|discriminate].
      intros [= <-]. simpl. rewrite grants_read_readers, grants_write_readers.
      rewrite ?length_app. simpl. lia.
    + rewrite ?H3. simpl. intros [= <-]. simpl. rewrite ?length_app. simpl. lia.
Qed.

Lemma rw_run_conserves (ops : list ReadWriteLock.Op) :
  forall s s', rw_inv s -> ReadWriteLock.run ops s = Some s' ->
    length (ReadWriteLock.readHeld s') + length (ReadWriteLock.writeHeld s')
    + length (ReadWriteLock.readQueue (ReadWriteLock.lock s'))
    + length (ReadWriteLock.writeQueue (ReadWriteLock.lock s'))
    + rw_releases ops =
    length (ReadWriteLock.readHeld s) + length (ReadWriteLock.writeHeld s)
    + length (ReadWriteLock.readQueue (ReadWriteLock.lock s))
    + length (ReadWriteLock.writeQueue (ReadWriteLock.lock s))
    + rw_acquires ops.
Proof.
  unfold rw_releases, rw_acquires.
  induction ops as [|op ops IH]; simpl; intros s s' Hs Hr.
  - injection Hr as <-. lia.
  - destruct (ReadWriteLock.exec op s) as [s1|] eqn:E; [|discriminate].
    pose proof (@rw_count_step s s1 op Hs E) as Hc.
    pose proof (IH _ _ (@rw_inv_step s s1 op Hs E) Hr) as Hi.
    destruct (rw_is_release op); simpl; lia.
Qed.

(** X17. The balance of a ReadWriteLock.  In every run the release functions
    handed out and not yet invoked, the callers in the two queues and the
    release functions invoked add up to the calls of [acquireRead()] and
    [acquireWrite()].  So when as many release functions were invoked as
    there were calls, the lock is back in its first state: no reader, no
    writer, both queues empty. *)
Theorem rw_balanced (ops : list ReadWriteLock.Op) (s : ReadWriteLock.Sys) :
  ReadWriteLock.run ops (ReadWriteLock.start ReadWriteLock.init) = Some s ->
  length (ReadWriteLock.readHeld s) + length (ReadWriteLock.writeHeld s)
  + length (ReadWriteLock.readQueue (ReadWriteLock.lock s))
  + length (ReadWriteLock.writeQueue (ReadWriteLock.lock s))
  + rw_releases ops = rw_acquires ops /\
  (rw_releases ops = rw_acquires ops ->
   ReadWriteLock.lock s = ReadWriteLock.init /\
   ReadWriteLock.readHeld s = [] /\ ReadWriteLock.writeHeld s = []).
Proof.
  intros Hr.
  pose proof (@rw_run_conserves ops _ _ rw_inv_start Hr) as Hc.
  pose proof (@rw_run_inv ops _ _ rw_inv_start Hr) as [H1 H2 _ _ _].
  simpl in Hc. split; [lia|]. intros Hb.
  destruct s as [[r w rq wq] cs rh wh]. simpl in *.
  assert (Hrq : rq = []) by (destruct rq; [reflexivity | simpl in Hc; lia]).
  assert (Hwq : wq = []) by (destruct wq; [reflexivity | simpl in Hc; lia]).
  assert (Hrh : rh = []) by (destruct rh; [reflexivity | simpl in Hc; lia]).
  assert (Hwh : wh = []) by (destruct wh; [reflexivity | simpl in Hc; lia]).
  subst rq wq rh wh. simpl in *. destruct w; [discriminate|]. subst r. auto.
Qed.

Lemma rw_balanced_witness :
  length (ReadWriteLock.readHeld rw_demo_state)
  + length (ReadWriteLock.writeHeld rw_demo_state)
  + length (ReadWriteLock.readQueue (ReadWriteLock.lock rw_demo_state))
  + length (ReadWriteLock.writeQueue (ReadWriteLock.lock rw_demo_state))
  + rw_releases rw_demo = rw_acquires rw_demo.
Proof.
  apply (rw_balanced rw_demo). vm_compute. reflexivity.
Defined.

Lemma rw_readers_enter (cs : list Caller) :
  forall (r : Z) (cl rh wh : list Caller), NoDup (cl ++ cs) ->
    ReadWriteLock.run (map ReadWriteLock.AcquireRead cs)
      (ReadWriteLock.mkSys (ReadWriteLock.mk r false [] []) cl rh wh) =
    Some (ReadWriteLock.mkSys
            (ReadWriteLock.mk (r + Z.of_nat (length cs)) false [] [])
            (cl ++ cs) (rh ++ cs) wh).
Proof.
  induction cs as [|c cs IH]; intros r cl rh wh Hnd.
  - simpl. rewrite Z.add_0_r, !app_nil_r. reflexivity.
  - destruct (NoDup_app_fresh _ _ _ Hnd) as [Hc Hnd'].
    simpl map. cbv beta iota delta [ReadWriteLock.run]; fold ReadWriteLock.run.
    unfold ReadWriteLock.exec. simpl ReadWriteLock.calls. rewrite Hc.
    unfold ReadWriteLock.settle. simpl. rewrite app_nil_r.
    rewrite IH by assumption. rewrite <- !app_assoc. simpl. do 3 f_equal. lia.
Qed.

Lemma rw_readers_queue (cs : list Caller) :
  forall (r : Z) (w : Caller) (rq wq cl rh wh : list Caller),
    NoDup (cl ++ cs) ->
    ReadWriteLock.run (map ReadWriteLock.AcquireRead cs)
      (ReadWriteLock.mkSys (ReadWriteLock.mk r false rq (w :: wq)) cl rh wh) =
    Some (ReadWriteLock.mkSys (ReadWriteLock.mk r false (rq ++ cs) (w :: wq))
            (cl ++ cs) rh wh).
Proof.
  induction cs as [|c cs IH]; intros r w rq wq cl rh wh Hnd.
  - simpl. rewrite !app_nil_r. reflexivity.
  - destruct (NoDup_app_fresh _ _ _ Hnd) as [Hc Hnd'].
    simpl map. cbv beta iota delta [ReadWriteLock.run]; fold ReadWriteLock.run.
    unfold ReadWriteLock.exec. simpl ReadWriteLock.calls. rewrite Hc.
    unfold ReadWriteLock.settle. simpl. rewrite !app_nil_r.
    rewrite IH by assumption. unfold push. rewrite <- !app_assoc. reflexivity.
Qed.

(** X18. Readers share, and a waiting writer closes the door.  On a new
    ReadWriteLock, readers that call [acquireRead()] one after the other are
    all granted at once and hold the lock together; once a writer has called
    [acquireWrite()] and waits for them, every reader that calls
    [acquireRead()] after it is queued behind it, although no writer is
    active. *)
Theorem rw_readers_share_until_writer (cs cs' : list Caller) (w : Caller) :
  cs <> [] -> NoDup (cs ++ w :: cs') ->
  ReadWriteLock.run
    (map ReadWriteLock.AcquireRead cs ++ ReadWriteLock.AcquireWrite w
     :: map ReadWriteLock.AcquireRead cs')
    (ReadWriteLock.start ReadWriteLock.init) =
  Some (ReadWriteLock.mkSys
          (ReadWriteLock.mk (Z.of_nat (length cs)) false cs' [w])
          (cs ++ w :: cs') cs []).
Proof.
  intros Hne Hnd. rewrite rw_run_app.
  assert (Hcs : NoDup ([] ++ cs)).
  { apply NoDup_app_remove_r in Hnd. exact Hnd. }
  unfold ReadWriteLock.start, ReadWriteLock.init.
  rewrite (rw_readers_enter cs 0 [] [] [] Hcs). simpl app. rewrite Z.add_0_l.
  destruct (NoDup_app_fresh _ _ _ Hnd) as [Hw Hnd'].
  cbv beta iota delta [ReadWriteLock.run]; fold ReadWriteLock.run.
  unfold ReadWriteLock.exec at 1. simpl ReadWriteLock.calls. rewrite Hw.
  unfold ReadWriteLock.settle, ReadWriteLock.acquireWrite,
    ReadWriteLock.tryAcquireWrite, push. simpl.
  destruct (Z.eqb_spec (Z.of_nat (length cs)) 0) as [E|N].
  - destruct cs; [congruence | discriminate].
  - simpl. rewrite !app_nil_r.
    rewrite (rw_readers_queue cs' _ w [] [] _ cs [] Hnd').
    rewrite <- app_assoc. reflexivity.
Qed.

Lemma rw_readers_share_until_writer_witness :
  ReadWriteLock.run
    (map ReadWriteLock.AcquireRead [1; 2; 3] ++ ReadWriteLock.AcquireWrite 4
     :: map ReadWriteLock.AcquireRead [5; 6])
    (ReadWriteLock.start ReadWriteLock.init) =
  Some (ReadWriteLock.mkSys (ReadWriteLock.mk 3 false [5; 6] [4])
          [1; 2; 3; 4; 5; 6] [1; 2; 3] []).
Proof.
  apply (@rw_readers_share_until_writer [1; 2; 3] [5; 6] 4).
  - discriminate.
  - repeat constructor; simpl; intuition discriminate.
Defined.

(** ** SimpleLock: callers at the same time *)

Lemma sl_calls_sleep (cs : list Caller) :
  forall (w : Z) (h : Caller) (ws : list Caller) (out : list string),
    NoDup (h :: ws ++ cs) ->
    SimpleLock.run (map SimpleLock.Call cs)
      (SimpleLock.mkSys (SimpleLock.mk true w) ws [h] out) =
    Some (SimpleLock.mkSys (SimpleLock.mk true w) (ws ++ cs) [h] out).
Proof.
  induction cs as [|c cs IH]; intros w h ws out Hnd.
  - simpl. rewrite app_nil_r. reflexivity.
  - assert (Hc : mem c ws || mem c [h] = false).
    { apply orb_false_iff. split; apply mem_false.
      - inversion Hnd as [|? ? _ Hnd']; subst.
        apply NoDup_remove_2 in Hnd'. intros H. apply Hnd'.
        apply in_or_app. left. assumption.
      - inversion Hnd as [|? ? Hh _]; subst. intros [E|[]]. subst c.
        apply Hh. apply in_or_app. right. left. reflexivity. }
    simpl map. cbv beta iota delta [SimpleLock.run]; fold SimpleLock.run.
    unfold SimpleLock.exec. simpl SimpleLock.waiting. simpl SimpleLock.holders.
    rewrite Hc. unfold SimpleLock.resume. simpl. rewrite app_nil_r.
    rewrite IH.
    + rewrite <- app_assoc. reflexivity.
    + rewrite <- app_assoc. exact Hnd.
Qed.

(** X19. Threads that ask a free SimpleLock at the same time: the first to
    call [acquire] gets the lock and logs its line, and every other one goes
    to sleep without touching the lock or the log, in the order of the
    calls. *)
Theorem sl_first_caller_wins (w : Z) (c : Caller) (cs : list Caller) :
  NoDup (c :: cs) ->
  SimpleLock.run (map SimpleLock.Call (c :: cs))
    (SimpleLock.start (SimpleLock.new w)) =
  Some (SimpleLock.mkSys (SimpleLock.mk true w) cs [c] [acquired_line c]).
Proof.
  intros Hnd. simpl map.
  cbv beta iota delta [SimpleLock.run]; fold SimpleLock.run.
  assert (E : SimpleLock.exec (SimpleLock.Call c)
                (SimpleLock.start (SimpleLock.new w)) =
              Some (SimpleLock.mkSys (SimpleLock.mk true w) [] [c]
                      [acquired_line c])) by reflexivity.
  rewrite E. apply (@sl_calls_sleep cs w c [] [acquired_line c]).
  exact Hnd.
Qed.

Lemma sl_first_caller_wins_witness :
  SimpleLock.run (map SimpleLock.Call [1; 2; 3; 4; 5])
    (SimpleLock.start (SimpleLock.new 2000)) =
  Some (SimpleLock.mkSys (SimpleLock.mk true 2000) [2; 3; 4; 5] [1]
          [acquired_line 1]).
Proof.
  apply (@sl_first_caller_wins 2000 1 [2; 3; 4; 5]).
  repeat constructor; simpl; intuition discriminate.
Defined.
